(** * TunSafe: the WireGuard protocol core ([wireguard_proto.h])

    A shallow embedding of the declarations of [wireguard_proto.h]: the
    protocol constants, the wire structures, the rate limiter, the address
    entry, the replay detector and the per-peer packet queue, followed by the
    properties proved about them.

    Fixed-width integers are [Z] with the wrap-around written out ([u8],
    [u32], [u64]); C arrays are lists updated by index. *)

From Stdlib Require Import ZArith List Lia Bool.
From stdpp Require Import base list.

Local Open Scope Z_scope.

(* ===================================================================== *)
(** * Part I: definitions                                                 *)
(* ===================================================================== *)

(** ** Fixed-width unsigned integers *)

Definition UINT64_MAX : Z := 0xFFFFFFFFFFFFFFFF.

Definition u8 (x : Z) : Z := x mod 2 ^ 8.
Definition u32 (x : Z) : Z := x mod 2 ^ 32.
Definition u64 (x : Z) : Z := x mod 2 ^ 64.

(** ** [enum ProtocolLimits] *)

Definition REJECT_AFTER_MESSAGES : Z := UINT64_MAX - 2048.
Definition REKEY_AFTER_MESSAGES : Z := UINT64_MAX - 0xffff.
Definition MAX_HANDSHAKE_ATTEMPTS : Z := 20.
Definition MAX_QUEUED_PACKETS_PER_PEER : Z := 128.
Definition MESSAGE_MINIMUM_SIZE : Z := 16.

(** ** [enum MessageFieldSizes] *)

Definition WG_COOKIE_LEN : Z := 16.
Definition WG_COOKIE_NONCE_LEN : Z := 24.
Definition WG_PUBLIC_KEY_LEN : Z := 32.
Definition WG_HASH_LEN : Z := 32.
Definition WG_SYMMETRIC_KEY_LEN : Z := 32.
Definition WG_MAC_LEN : Z := 16.
Definition WG_TIMESTAMP_LEN : Z := 12.
Definition WG_SIPHASH_KEY_LEN : Z := 16.

(** ** The wire structures

    The header declares the messages as plain C structs and pins their sizes
    with [STATIC_ASSERT(sizeof(...) == ...)].  A struct is embedded as the
    list of its members' types, in declaration order; [sizeof] lays the
    members out one after the other, each at the next offset that is a
    multiple of its alignment, and rounds the total up to the alignment of
    the struct, as the C ABI does. *)

#[warnings="-register-all"]
Inductive ctype : Type :=
  | UInt8
  | UInt16
  | UInt32
  | UInt64
  | CArray (elt : ctype) (len : Z)
  | CStruct (members : list ctype).

Definition align_up (off a : Z) : Z := (off + a - 1) / a * a.

Fixpoint alignof (t : ctype) : Z :=
  match t with
  | UInt8 => 1
  | UInt16 => 2
  | UInt32 => 4
  | UInt64 => 8
  | CArray elt _ => alignof elt
  | CStruct ms =>
      (fix members_align (l : list ctype) : Z :=
         match l with
         | [] => 1
         | m :: l' => Z.max (alignof m) (members_align l')
         end) ms
  end.

Fixpoint sizeof (t : ctype) : Z :=
  match t with
  | UInt8 => 1
  | UInt16 => 2
  | UInt32 => 4
  | UInt64 => 8
  | CArray elt len => len * sizeof elt
  | CStruct ms =>
      align_up
        ((fix members_end (l : list ctype) (off : Z) : Z :=
            match l with
            | [] => off
            | m :: l' => members_end l' (align_up off (alignof m) + sizeof m)
            end) ms 0)
        (alignof (CStruct ms))
  end.

(** Offsets of the members of a struct, in declaration order. *)
Fixpoint member_offsets (ms : list ctype) (off : Z) : list Z :=
  match ms with
  | [] => []
  | m :: ms' =>
      let o := align_up off (alignof m) in
      o :: member_offsets ms' (o + sizeof m)
  end.

(** The size a struct would have with its members packed back to back. *)
Definition packed_size (ms : list ctype) : Z :=
  foldr (fun m acc => sizeof m + acc) 0 ms.

Definition MessageMacs_members : list ctype :=
  [ CArray UInt8 WG_COOKIE_LEN    (* mac1 *)
  ; CArray UInt8 WG_COOKIE_LEN ]  (* mac2 *).
Definition MessageMacs : ctype := CStruct MessageMacs_members.

Definition MessageHandshakeInitiation_members : list ctype :=
  [ UInt32                                             (* type *)
  ; UInt32                                             (* sender_key_id *)
  ; CArray UInt8 WG_PUBLIC_KEY_LEN                     (* ephemeral *)
  ; CArray UInt8 (WG_PUBLIC_KEY_LEN + WG_MAC_LEN)      (* static_enc *)
  ; CArray UInt8 (WG_TIMESTAMP_LEN + WG_MAC_LEN)       (* timestamp_enc *)
  ; MessageMacs ]                                      (* mac *).
Definition MessageHandshakeInitiation : ctype :=
  CStruct MessageHandshakeInitiation_members.

Definition MessageHandshakeResponse_members : list ctype :=
  [ UInt32                              (* type *)
  ; UInt32                              (* sender_key_id *)
  ; UInt32                              (* receiver_key_id *)
  ; CArray UInt8 WG_PUBLIC_KEY_LEN      (* ephemeral *)
  ; CArray UInt8 WG_MAC_LEN             (* empty_enc *)
  ; MessageMacs ]                       (* mac *).
Definition MessageHandshakeResponse : ctype :=
  CStruct MessageHandshakeResponse_members.

Definition MessageHandshakeCookie_members : list ctype :=
  [ UInt32                                        (* type *)
  ; UInt32                                        (* receiver_key_id *)
  ; CArray UInt8 WG_COOKIE_NONCE_LEN              (* nonce *)
  ; CArray UInt8 (WG_COOKIE_LEN + WG_MAC_LEN) ]   (* cookie_enc *).
Definition MessageHandshakeCookie : ctype :=
  CStruct MessageHandshakeCookie_members.

Definition MessageData_members : list ctype :=
  [ UInt32     (* type *)
  ; UInt32     (* receiver_id *)
  ; UInt64 ]   (* counter *).
Definition MessageData : ctype := CStruct MessageData_members.

(** ** [class WgRateLimit]

    [bins_] is the array [uint8 bins_[2][BINSIZE]], kept flat in row-major
    order as C lays it out: entry [bins_[b][i]] is at offset
    [b * BINSIZE + i].  A [uint8 *] into the array is that offset. *)

Definition BINSIZE : Z := 4096.
Definition PACKETS_PER_SEC : Z := 25.
Definition PACKET_ACCUM : Z := 100.
Definition TOTAL_PACKETS_PER_SEC : Z := 25000.

Record RateLimitResult : Type := mkRateLimitResult {
  value_ptr : nat;
  new_value : Z;
  is_ok : Z
}.

Definition is_rate_limited (rr : RateLimitResult) : bool := is_ok rr =? 0.
Definition is_first_ip (rr : RateLimitResult) : bool := new_value rr =? 1.

(** The fields that the inline members of the class read or write.  The
    pointers [bin1_] and [bin2_], the random state and the SipHash keys are
    used only by [CheckRateLimit] and [Periodic], whose bodies are outside
    the header. *)
Record WgRateLimit : Type := mkWgRateLimit {
  packets_per_sec_ : Z;
  used_rate_limit_ : Z;
  bins_ : list Z
}.

Definition bin_entry (bin : Z) (i : Z) : nat := Z.to_nat (bin * BINSIZE + i).

(** [*rr.value_ptr = rr.new_value;
     if (used_rate_limit_++ == TOTAL_PACKETS_PER_SEC)
       packets_per_sec_ = (packets_per_sec_ + 1) >> 1;]

    A store through a pointer outside [bins_] is undefined in C++; the list
    update leaves the array as it is there, and the properties of the store
    are stated for pointers inside the array. *)
Definition CommitResult (rl : WgRateLimit) (rr : RateLimitResult) : WgRateLimit :=
  {| bins_ := <[value_ptr rr := new_value rr]> (bins_ rl);
     used_rate_limit_ := u32 (used_rate_limit_ rl + 1);
     packets_per_sec_ :=
       if used_rate_limit_ rl =? TOTAL_PACKETS_PER_SEC
       then Z.shiftr (u32 (packets_per_sec_ rl + 1)) 1
       else packets_per_sec_ rl |}.

Definition is_used (rl : WgRateLimit) : bool :=
  negb (used_rate_limit_ rl =? 0) || negb (packets_per_sec_ rl =? PACKETS_PER_SEC).

(** Every packet of a list is counted, oldest first. *)
Definition commit_all (rl : WgRateLimit) (rrs : list RateLimitResult) : WgRateLimit :=
  fold_left CommitResult rrs rl.

(** Modelled from the spec: the constructor [WgRateLimit::WgRateLimit()] is
    only declared in the header.  The spec has the token counter start at 25
    ([PACKETS_PER_SEC]) with nothing counted and both bins empty. *)
Definition WgRateLimit_new : WgRateLimit :=
  {| packets_per_sec_ := PACKETS_PER_SEC;
     used_rate_limit_ := 0;
     bins_ := replicate (Z.to_nat (2 * BINSIZE)) 0 |}.

Section CheckRateLimit.
(** The two keyed SipHash functions are primitives outside the core; each
    is reduced to a slot of its bin. *)
Variables hash1 hash2 : Z -> Z.

Definition slot1 (ip : Z) : nat := bin_entry 0 (hash1 ip mod BINSIZE).
Definition slot2 (ip : Z) : nat := bin_entry 1 (hash2 ip mod BINSIZE).

Definition bin_value (rl : WgRateLimit) (p : nat) : Z := default 0 (bins_ rl !! p).

(** Modelled from the spec: [WgRateLimit::CheckRateLimit] is only declared
    in the header.  The spec reads the two entries [a = bin[hash1]] and
    [b = bin[hash2]], rate-limits when [min(a,b) >= PACKET_ACCUM], and
    returns a pointer to one entry (the one holding the minimum) together
    with the value proposed for it, one more than it holds when the packet
    is let through. *)
Definition CheckRateLimit (rl : WgRateLimit) (ip : Z) : RateLimitResult :=
  let a := bin_value rl (slot1 ip) in
  let b := bin_value rl (slot2 ip) in
  let ok := Z.min a b <? PACKET_ACCUM in
  {| value_ptr := if a <=? b then slot1 ip else slot2 ip;
     new_value := if ok then u8 (Z.min a b + 1) else Z.min a b;
     is_ok := if ok then 1 else 0 |}.
End CheckRateLimit.

(** ** [struct WgAddrEntry]

    A [WgKeypair *] is a handle, [None] for [NULL]. *)

Record WgAddrEntry : Type := mkWgAddrEntry {
  addr_entry_id : Z;
  time_of_last_insertion : Z;
  ref_count : Z;
  next_slot : Z;
  keys : list (option nat)
}.

(** [WgAddrEntry(uint64 addr_entry_id)
      : addr_entry_id(addr_entry_id), ref_count(0), next_slot(0) {
        keys[0] = keys[1] = keys[2] = NULL;
        time_of_last_insertion = 0x123456789123456; }] *)
Definition WgAddrEntry_new (id : Z) : WgAddrEntry :=
  {| addr_entry_id := id;
     ref_count := 0;
     next_slot := 0;
     keys := [None; None; None];
     time_of_last_insertion := 0x123456789123456 |}.

(** ** [class ReplayDetector] (RFC 6479) *)

Definition BITS_PER_ENTRY : Z := 32.
Definition WINDOW_SIZE : Z := 2048 - BITS_PER_ENTRY.
Definition BITMAP_SIZE : Z := WINDOW_SIZE / BITS_PER_ENTRY + 1.
Definition BITMAP_MASK : Z := BITMAP_SIZE - 1.

(** [std::atomic<uint64> expected_seq_nr_; uint32 bitmap_[BITMAP_SIZE];] *)
Record ReplayDetector : Type := mkReplayDetector {
  expected_seq_nr_ : Z;
  bitmap_ : list Z
}.

(** [const uint64 expected_seq_nr() const { return expected_seq_nr_; }] *)
Definition expected_seq_nr (rd : ReplayDetector) : Z := expected_seq_nr_ rd.

(** Modelled from the spec: the indexing of the bitmap is in the body of
    [CheckReplay], which the header does not have.  The spec indexes the
    words by (seq / 32) mod 64; with the header's constants that is the slot
    [seq / BITS_PER_ENTRY] masked by [BITMAP_MASK]. *)
Definition slot_index (slot : Z) : nat := Z.to_nat (Z.land slot BITMAP_MASK).
Definition bitmap_index (seq : Z) : nat := slot_index (seq / BITS_PER_ENTRY).

(** Modelled from the spec: the bit of a counter inside its 32-bit word, also
    from the body of [CheckReplay]. *)
Definition bit_mask (seq : Z) : Z := Z.shiftl 1 (Z.land seq (BITS_PER_ENTRY - 1)).

(** Modelled from the spec: the constructor [ReplayDetector::ReplayDetector()]
    is only declared in the header.  Nothing is accepted yet: the expected
    counter is 0 and no bit is set. *)
Definition ReplayDetector_new : ReplayDetector :=
  {| expected_seq_nr_ := 0; bitmap_ := replicate (Z.to_nat BITMAP_SIZE) 0 |}.

(** Modelled from the spec: the clearing of skipped words, part of the body
    of [CheckReplay].  It zeroes the words of the [n] slots [first],
    [first + 1], ... *)
Fixpoint clear_words (bm : list Z) (first : Z) (n : nat) : list Z :=
  match n with
  | O => bm
  | S n' => clear_words (<[slot_index first := 0]> bm) (first + 1) n'
  end.

(** Modelled from the spec: the advance of the window, part of the body of
    [CheckReplay].  The window moves up to [seq]: the words of the slots
    skipped since the highest accepted counter are cleared, those of a whole
    bitmap at most, and [seq + 1] is expected next. *)
Definition advance_window (rd : ReplayDetector) (seq : Z) : ReplayDetector :=
  let first := u64 (expected_seq_nr_ rd + BITS_PER_ENTRY - 1) / BITS_PER_ENTRY in
  let n := Z.min (seq / BITS_PER_ENTRY + 1 - first) BITMAP_SIZE in
  {| expected_seq_nr_ := u64 (seq + 1);
     bitmap_ := clear_words (bitmap_ rd) first (Z.to_nat n) |}.

(** Modelled from the spec: the test of the bit, part of the body of
    [CheckReplay].  It sets the bit of [seq] and tells whether it was clear
    before. *)
Definition test_and_set (rd : ReplayDetector) (seq : Z) : ReplayDetector * bool :=
  let i := bitmap_index seq in
  let prev := default 0 (bitmap_ rd !! i) in
  let mask := bit_mask seq in
  ({| expected_seq_nr_ := expected_seq_nr_ rd;
      bitmap_ := <[i := Z.lor prev mask]> (bitmap_ rd) |},
   Z.land prev mask =? 0).

(** Modelled from the spec: [ReplayDetector::CheckReplay] is only declared in
    the header.  The spec (4.1, RFC 6479) has it return false if the counter
    is zero, if counter + window < expected, or if the bit is already set;
    otherwise it advances the window (clearing skipped words) and sets the
    bit.  As in RFC 6479 a counter at or above the expected one moves the
    window before its bit is looked at, so that a bit left from 64 slots
    earlier is not taken for it.  The returned detector is the state after
    the call. *)
Definition CheckReplay (rd : ReplayDetector) (seq : Z) : ReplayDetector * bool :=
  if seq =? 0 then (rd, false)
  else if u64 (seq + WINDOW_SIZE) <? expected_seq_nr_ rd then (rd, false)
  else if expected_seq_nr_ rd <=? seq then test_and_set (advance_window rd seq) seq
  else test_and_set rd seq.

(** The detector after a sequence of inbound counters, with the counters it
    accepted, oldest first. *)
Fixpoint receive_all (rd : ReplayDetector) (seqs : list Z) : ReplayDetector * list Z :=
  match seqs with
  | [] => (rd, [])
  | seq :: rest =>
      let '(rd1, ok) := CheckReplay rd seq in
      let '(rd2, acc) := receive_all rd1 rest in
      (rd2, if ok then seq :: acc else acc)
  end.

(** The highest counter of a list, [-1] for none. *)
Definition highest (seqs : list Z) : Z := foldr Z.max (-1) seqs.

(** ** The send counter of a keypair *)

(** Modelled from the spec: the code that sends a data packet is not in the
    header, which has the field [uint64 send_ctr] of [WgKeypair] and the
    limit.  The spec rejects a packet when [send_ctr >= REJECT_AFTER_MESSAGES]
    and accepts it below. *)
Definition send_ctr_accepted (send_ctr : Z) : bool := send_ctr <? REJECT_AFTER_MESSAGES.

(** ** The send queue of [WgPeer] *)

Section PeerQueue.
(** [Packet] is declared outside the header. *)
Context {Packet : Type}.

(** [uint8 num_queued_packets_; Packet *first_queued_packet_,
    **last_queued_packet_ptr_;]: the linked list is the list of its
    packets, the first queued at the head. *)
Record PeerQueue : Type := mkPeerQueue {
  num_queued_packets_ : Z;
  queued_packets_ : list Packet
}.

Definition PeerQueue_empty : PeerQueue :=
  {| num_queued_packets_ := 0; queued_packets_ := [] |}.

(** Modelled from the spec: the drop of the oldest packet, part of the body
    of [AddPacketToPeerQueue].  It unlinks the first packet of the queue. *)
Definition drop_oldest (q : PeerQueue) : PeerQueue :=
  match queued_packets_ q with
  | [] => q
  | _ :: rest =>
      {| num_queued_packets_ := u8 (num_queued_packets_ q - 1);
         queued_packets_ := rest |}
  end.

(** Modelled from the spec: [WgPeer::AddPacketToPeerQueue] is only declared
    in the header.  The spec queues up to 128 packets per peer
    ([MAX_QUEUED_PACKETS_PER_PEER]) in arrival order and drops the oldest
    on overflow. *)
Definition AddPacketToPeerQueue (q : PeerQueue) (packet : Packet) : PeerQueue :=
  let q1 :=
    if MAX_QUEUED_PACKETS_PER_PEER <=? num_queued_packets_ q
    then drop_oldest q else q in
  {| num_queued_packets_ := u8 (num_queued_packets_ q1 + 1);
     queued_packets_ := queued_packets_ q1 ++ [packet] |}.

Definition add_all (q : PeerQueue) (ps : list Packet) : PeerQueue :=
  fold_left AddPacketToPeerQueue ps q.

(** The counter agrees with the list and is within the bound. *)
Definition queue_ok (q : PeerQueue) : Prop :=
  num_queued_packets_ q = Z.of_nat (length (queued_packets_ q))
  /\ num_queued_packets_ q <= MAX_QUEUED_PACKETS_PER_PEER.
End PeerQueue.

Arguments PeerQueue : clear implicits.

(** ** The handshake timestamp of [WgPeer] *)

(** [memcmp] on two byte strings: the first differing byte decides. *)
Fixpoint memcmp (a b : list Z) : comparison :=
  match a, b with
  | [], [] => Eq
  | [], _ :: _ => Lt
  | _ :: _, [] => Gt
  | x :: a', y :: b' =>
      match x ?= y with
      | Eq => memcmp a' b'
      | c => c
      end
  end.

(** [uint8 last_timestamp_[WG_TIMESTAMP_LEN]]: the most recent seen
    timestamp, only higher ones are accepted.  It is the one field of
    [WgPeer] that the timestamp rule reads and writes. *)
Record PeerTimestamp : Type := mkPeerTimestamp {
  last_timestamp_ : list Z
}.

(** Modelled from the spec: what the responder learns from an initiation
    message, by code that is not in the header: whether MAC1, the cookie and
    rate-limit rules and the decryption of the static key and the timestamp
    passed (all computed by primitives outside the core), and the 12-byte
    TAI64N timestamp it carries. *)
Record Initiation : Type := mkInitiation {
  init_checks_ok : bool;
  init_timestamp : list Z
}.

(** Modelled from the spec: [WgPeer::ParseMessageHandshakeInitiation] is only
    declared in the header.  The spec accepts an initiation only if the other
    checks pass and its timestamp strictly exceeds the peer's last accepted
    one, which it then replaces. *)
Definition ParseMessageHandshakeInitiation (p : PeerTimestamp) (m : Initiation)
  : PeerTimestamp * bool :=
  if init_checks_ok m then
    match memcmp (init_timestamp m) (last_timestamp_ p) with
    | Gt => ({| last_timestamp_ := init_timestamp m |}, true)
    | _ => (p, false)
    end
  else (p, false).

(** The peer after a sequence of initiations, with the timestamps of the
    accepted ones, oldest first. *)
Fixpoint receive_initiations (p : PeerTimestamp) (ms : list Initiation)
  : PeerTimestamp * list (list Z) :=
  match ms with
  | [] => (p, [])
  | m :: rest =>
      let '(p1, ok) := ParseMessageHandshakeInitiation p m in
      let '(p2, acc) := receive_initiations p1 rest in
      (p2, if ok then init_timestamp m :: acc else acc)
  end.

(** Each element is strictly above the one before it. *)
Fixpoint strictly_increasing (prev : list Z) (tss : list (list Z)) : Prop :=
  match tss with
  | [] => True
  | ts :: rest => memcmp ts prev = Gt /\ strictly_increasing ts rest
  end.

(** ** Further declarations of the header *)

(** *** [enum MessageType] *)

Definition MESSAGE_HANDSHAKE_INITIATION : Z := 1.
Definition MESSAGE_HANDSHAKE_RESPONSE : Z := 2.
Definition MESSAGE_HANDSHAKE_COOKIE : Z := 3.
Definition MESSAGE_DATA : Z := 4.

Definition MessageType_values : list Z :=
  [ MESSAGE_HANDSHAKE_INITIATION; MESSAGE_HANDSHAKE_RESPONSE;
    MESSAGE_HANDSHAKE_COOKIE; MESSAGE_DATA ].

(** *** The flag byte of a short header, and of an ack header *)

Definition WG_SHORT_HEADER_BIT : Z := 0x80.
Definition WG_SHORT_HEADER_KEY_ID_MASK : Z := 0x60.
Definition WG_SHORT_HEADER_KEY_ID : Z := 0x20.
Definition WG_SHORT_HEADER_ACK : Z := 0x10.
Definition WG_SHORT_HEADER_TYPE_MASK : Z := 0x0F.
Definition WG_SHORT_HEADER_CTR1 : Z := 0x00.
Definition WG_SHORT_HEADER_CTR2 : Z := 0x01.
Definition WG_SHORT_HEADER_CTR4 : Z := 0x02.

Definition WG_ACK_HEADER_COUNTER_MASK : Z := 0x0C.
Definition WG_ACK_HEADER_COUNTER_NONE : Z := 0x00.
Definition WG_ACK_HEADER_COUNTER_2 : Z := 0x04.
Definition WG_ACK_HEADER_COUNTER_4 : Z := 0x08.
Definition WG_ACK_HEADER_COUNTER_6 : Z := 0x0C.
Definition WG_ACK_HEADER_KEY_MASK : Z := 3.

(** *** [struct WgPacketCompressionVer01] *)

Definition WgPacketCompressionVer01_members : list ctype :=
  [ UInt16               (* version *)
  ; UInt8                (* ttl *)
  ; UInt8                (* flags *)
  ; CArray UInt8 4       (* ipv4_addr *)
  ; CArray UInt8 16 ]    (* ipv6_addr *).
Definition WgPacketCompressionVer01 : ctype := CStruct WgPacketCompressionVer01_members.

(** *** The token counter under [CommitResult] *)

(** [(packets_per_sec_ + 1) >> 1], the value [CommitResult] gives the token
    counter when it halves it. *)
Definition halve_tokens (p : Z) : Z := Z.shiftr (u32 (p + 1)) 1.

(** How many of [k] commits, the first made with the packet counter at
    [used], find the counter at [TOTAL_PACKETS_PER_SEC]: the counter is at
    that value once in every 2^32 commits. *)
Definition halvings (used k : Z) : Z :=
  (used + k - (TOTAL_PACKETS_PER_SEC + 1)) / 2 ^ 32
  - (used - (TOTAL_PACKETS_PER_SEC + 1)) / 2 ^ 32.

(** The value that the last result of a list pointing at the entry [p]
    proposes for it, if any does. *)
Fixpoint last_write (p : nat) (rrs : list RateLimitResult) : option Z :=
  match rrs with
  | [] => None
  | rr :: rest =>
      match last_write p rest with
      | Some v => Some v
      | None => if decide (value_ptr rr = p) then Some (new_value rr) else None
      end
  end.

(** The values of a byte. *)
Definition all_bytes : list Z := map Z.of_nat (seq 0 256).

(** The fields of a flag byte, taken with the masks of the header. *)
Definition short_header_fields (b : Z) : Z * Z * Z * Z :=
  (Z.land b WG_SHORT_HEADER_BIT, Z.land b WG_SHORT_HEADER_KEY_ID_MASK,
   Z.land b WG_SHORT_HEADER_ACK, Z.land b WG_SHORT_HEADER_TYPE_MASK).

Definition ack_header_fields (b : Z) : Z * Z :=
  (Z.land b WG_ACK_HEADER_COUNTER_MASK, Z.land b WG_ACK_HEADER_KEY_MASK).

(** What is checked of every byte for the short header, as a boolean. *)
Definition short_header_byte_ok (b : Z) : bool :=
  let '(s, k, a, t) := short_header_fields b in
  (Z.lor (Z.lor (Z.lor s k) a) t =? b)
  && ((s =? 0) || (s =? WG_SHORT_HEADER_BIT))
  && ((s =? 0) || negb (existsb (Z.eqb b) MessageType_values))
  && existsb (fun i => k =? i * WG_SHORT_HEADER_KEY_ID) [0; 1; 2; 3]
  && ((a =? 0) || (a =? WG_SHORT_HEADER_ACK))
  && (0 <=? t) && (t <=? WG_SHORT_HEADER_TYPE_MASK).

(** What is checked of every byte for the ack header, as a boolean. *)
Definition ack_header_byte_ok (b : Z) : bool :=
  let '(c, k) := ack_header_fields b in
  (Z.lor c k =? Z.land b WG_SHORT_HEADER_TYPE_MASK)
  && existsb (Z.eqb c)
       [ WG_ACK_HEADER_COUNTER_NONE; WG_ACK_HEADER_COUNTER_2;
         WG_ACK_HEADER_COUNTER_4; WG_ACK_HEADER_COUNTER_6 ]
  && (0 <=? k) && (k <=? 3).

(** ** Predicates used in the proofs *)

(** What holds of the limiter [k] commits after it was fresh, whatever [k]:
    the packet counter is [k] modulo 2^32, and the token counter is still 25
    up to 25000 commits and at most 13 afterwards, for good. *)
Definition after_commits (k : Z) (rl : WgRateLimit) : Prop :=
  used_rate_limit_ rl = k mod 2 ^ 32
  /\ 0 <= packets_per_sec_ rl
  /\ (k <= TOTAL_PACKETS_PER_SEC -> packets_per_sec_ rl = PACKETS_PER_SEC)
  /\ (TOTAL_PACKETS_PER_SEC < k -> packets_per_sec_ rl <= 13).

(** The bit of a counter in a bitmap. *)
Definition bit_of (bm : list Z) (seq : Z) : bool :=
  Z.testbit (default 0 (bm !! bitmap_index seq)) (seq mod 32).


(** The first slot above the one of the highest accepted counter. *)
Definition first_free_slot (expected : Z) : Z := (expected + 31) / 32.

(** In the 64 slots below [first] the set bits are the accepted counters. *)
Definition bitmap_exact (bm : list Z) (first : Z) (acc : list Z) : Prop :=
  forall m, 0 <= m -> m / 32 < first -> first <= m / 32 + 64 ->
            (bit_of bm m = true <-> In m acc).

(** What holds of a detector that has accepted the counters [acc]. *)
Definition detector_ok (rd : ReplayDetector) (acc : list Z) : Prop :=
  length (bitmap_ rd) = 64%nat
  /\ expected_seq_nr_ rd = highest acc + 1
  /\ expected_seq_nr_ rd <= UINT64_MAX
  /\ (forall m, In m acc -> 0 < m)
  /\ bitmap_exact (bitmap_ rd) (first_free_slot (expected_seq_nr_ rd)) acc.

(** The 64-bit counters other than [UINT64_MAX], the one after which the
    expected counter wraps to 0. *)
Definition counter_in_range (n : Z) : Prop := 0 <= n < UINT64_MAX.

(* ===================================================================== *)
(** * Part II: properties                                                 *)
(* ===================================================================== *)

(** ** Wire structures *)

(** C6: the wire structures have the sizes the header asserts.  A handshake
    initiation is 148 bytes, made of a 4-byte type, a 4-byte sender key id, a
    32-byte ephemeral key, a 32+16-byte encrypted static key, a 12+16-byte
    encrypted timestamp and two 16-byte MACs, laid out without padding; a
    handshake response is 92 bytes, a cookie reply 64 bytes and a data
    message header 16 bytes. *)
Theorem wire_structures_have_declared_sizes :
  sizeof MessageHandshakeInitiation = 148
  /\ map sizeof MessageHandshakeInitiation_members
     = [4; 4; 32; 32 + 16; 12 + 16; 16 + 16]
  /\ map sizeof MessageMacs_members = [16; 16]
  /\ member_offsets MessageHandshakeInitiation_members 0 = [0; 4; 8; 40; 88; 116]
  /\ packed_size MessageHandshakeInitiation_members = 148
  /\ sizeof MessageHandshakeResponse = 92
  /\ map sizeof MessageHandshakeResponse_members = [4; 4; 4; 32; 16; 16 + 16]
  /\ packed_size MessageHandshakeResponse_members = 92
  /\ sizeof MessageHandshakeCookie = 64
  /\ map sizeof MessageHandshakeCookie_members = [4; 4; 24; 16 + 16]
  /\ packed_size MessageHandshakeCookie_members = 64
  /\ sizeof MessageData = 16
  /\ map sizeof MessageData_members = [4; 4; 8]
  /\ packed_size MessageData_members = 16.
Proof. repeat split; vm_compute; reflexivity. Qed.

(** ** Message-count limits *)

Lemma REJECT_AFTER_MESSAGES_value : REJECT_AFTER_MESSAGES = 2 ^ 64 - 2049.
Proof. reflexivity. Qed.

Lemma send_ctr_accepted_iff (c : Z) :
  send_ctr_accepted c = true <-> c < REJECT_AFTER_MESSAGES.
Proof. unfold send_ctr_accepted. apply Z.ltb_lt. Qed.

(** C3 as stated fails: the header's [REJECT_AFTER_MESSAGES] is
    [UINT64_MAX - 2048], one less than 2^64 - 2048. *)
Lemma REJECT_AFTER_MESSAGES_not_pow64_minus_2048 :
  ~ (REKEY_AFTER_MESSAGES = 2 ^ 64 - 2 ^ 16
     /\ REJECT_AFTER_MESSAGES = 2 ^ 64 - 2048
     /\ send_ctr_accepted (REJECT_AFTER_MESSAGES - 1) = true
     /\ send_ctr_accepted (2 ^ 64 - 2048) = false).
Proof. intros (_ & H & _). vm_compute in H. discriminate H. Qed.

(** C3, amended: [REKEY_AFTER_MESSAGES] is 2^64 - 2^16 and
    [REJECT_AFTER_MESSAGES] is [UINT64_MAX - 2048], that is 2^64 - 2049; a
    send counter of [REJECT_AFTER_MESSAGES - 1] is accepted, and every send
    counter from [REJECT_AFTER_MESSAGES] on, 2^64 - 2048 among them, is
    rejected. *)
Theorem message_count_limits :
  REKEY_AFTER_MESSAGES = 2 ^ 64 - 2 ^ 16
  /\ REJECT_AFTER_MESSAGES = UINT64_MAX - 2048
  /\ REJECT_AFTER_MESSAGES = 2 ^ 64 - 2049
  /\ send_ctr_accepted (REJECT_AFTER_MESSAGES - 1) = true
  /\ send_ctr_accepted REJECT_AFTER_MESSAGES = false
  /\ send_ctr_accepted (2 ^ 64 - 2048) = false
  /\ (forall c, send_ctr_accepted c = false <-> REJECT_AFTER_MESSAGES <= c).
Proof.
  repeat split; try reflexivity.
  - unfold send_ctr_accepted. intros H. apply Z.ltb_ge in H. exact H.
  - unfold send_ctr_accepted. intros H. apply Z.ltb_ge. exact H.
Qed.

(** ** Address entries *)

(** C10: a newly constructed [WgAddrEntry] has a reference count of 0, next
    slot 0 and three NULL keys; its [time_of_last_insertion] is the constant
    0x123456789123456 and not 0, so whatever rule spaces the insertions by
    the time of the last one (it is applied by code outside the header, and
    is any function [rule] of that time and of the current one here) is
    measured against that constant at the first insertion. *)
Theorem WgAddrEntry_new_fields (id : Z) :
  addr_entry_id (WgAddrEntry_new id) = id
  /\ ref_count (WgAddrEntry_new id) = 0
  /\ next_slot (WgAddrEntry_new id) = 0
  /\ keys (WgAddrEntry_new id) = [None; None; None]
  /\ length (keys (WgAddrEntry_new id)) = 3%nat
  /\ time_of_last_insertion (WgAddrEntry_new id) = 0x123456789123456
  /\ time_of_last_insertion (WgAddrEntry_new id) <> 0
  /\ (forall (rule : Z -> Z -> bool) (now : Z),
        rule (time_of_last_insertion (WgAddrEntry_new id)) now
        = rule 0x123456789123456 now).
Proof.
  repeat split; try reflexivity.
  discriminate.
Qed.

(** ** The rate limiter *)

Lemma halve_div2 (p : Z) :
  0 <= p < 2 ^ 32 - 1 -> Z.shiftr (u32 (p + 1)) 1 = (p + 1) / 2.
Proof.
  intros Hp. unfold u32. rewrite Z.mod_small by lia.
  rewrite Z.shiftr_div_pow2 by lia. reflexivity.
Qed.

Lemma halve_bounds (p : Z) :
  1 <= p -> 1 <= (p + 1) / 2 <= p /\ (1 < p -> (p + 1) / 2 < p).
Proof. intros Hp. split; [split|intros Hp1]; Z.div_mod_to_equations; lia. Qed.

Lemma commit_all_cons rl rr rrs :
  commit_all rl (rr :: rrs) = commit_all (CommitResult rl rr) rrs.
Proof. reflexivity. Qed.

(** Within one counting period (before the 32-bit counter wraps) the counter
    is the number of committed packets. *)
Lemma commit_all_used (rrs : list RateLimitResult) : forall rl,
  0 <= used_rate_limit_ rl ->
  used_rate_limit_ rl + Z.of_nat (length rrs) < 2 ^ 32 ->
  used_rate_limit_ (commit_all rl rrs) = used_rate_limit_ rl + Z.of_nat (length rrs).
Proof.
  induction rrs as [|rr rrs IH]; intros rl H0 Hlen.
  - simpl. lia.
  - rewrite commit_all_cons. cbn [length] in *.
    assert (Hu : used_rate_limit_ (CommitResult rl rr) = used_rate_limit_ rl + 1).
    { cbn. unfold u32. apply Z.mod_small. lia. }
    rewrite IH; rewrite Hu; lia.
Qed.

(** The token counter is halved once, by the commit that finds the packet
    counter at [TOTAL_PACKETS_PER_SEC]. *)
Lemma commit_all_packets_per_sec (rrs : list RateLimitResult) : forall rl,
  0 <= used_rate_limit_ rl ->
  used_rate_limit_ rl + Z.of_nat (length rrs) < 2 ^ 32 ->
  packets_per_sec_ (commit_all rl rrs)
  = if (used_rate_limit_ rl <=? TOTAL_PACKETS_PER_SEC)
       && (TOTAL_PACKETS_PER_SEC <? used_rate_limit_ rl + Z.of_nat (length rrs))
    then Z.shiftr (u32 (packets_per_sec_ rl + 1)) 1
    else packets_per_sec_ rl.
Proof.
  induction rrs as [|rr rrs IH]; intros rl H0 Hlen.
  - simpl. destruct (_ <=? _) eqn:E1; destruct (_ <? _) eqn:E2; try reflexivity.
    apply Z.leb_le in E1. apply Z.ltb_lt in E2. lia.
  - rewrite commit_all_cons. cbn [length] in *.
    assert (Hu : used_rate_limit_ (CommitResult rl rr) = used_rate_limit_ rl + 1).
    { cbn. unfold u32. apply Z.mod_small. lia. }
    rewrite IH; rewrite Hu; try lia.
    cbn [packets_per_sec_ CommitResult].
    destruct (used_rate_limit_ rl =? TOTAL_PACKETS_PER_SEC) eqn:E.
    + apply Z.eqb_eq in E. rewrite E.
      replace (TOTAL_PACKETS_PER_SEC + 1 <=? TOTAL_PACKETS_PER_SEC) with false
        by (symmetry; apply Z.leb_gt; lia).
      replace (TOTAL_PACKETS_PER_SEC <=? TOTAL_PACKETS_PER_SEC) with true
        by (symmetry; apply Z.leb_le; lia).
      replace (TOTAL_PACKETS_PER_SEC <? TOTAL_PACKETS_PER_SEC + Z.of_nat (S (length rrs)))
        with true by (symmetry; apply Z.ltb_lt; lia).
      reflexivity.
    + apply Z.eqb_neq in E.
      replace (used_rate_limit_ rl + 1 + Z.of_nat (length rrs))
        with (used_rate_limit_ rl + Z.of_nat (S (length rrs))) by lia.
      destruct (used_rate_limit_ rl + 1 <=? TOTAL_PACKETS_PER_SEC) eqn:E1;
        destruct (used_rate_limit_ rl <=? TOTAL_PACKETS_PER_SEC) eqn:E2;
        try reflexivity.
      * apply Z.leb_le in E1. apply Z.leb_gt in E2. lia.
      * apply Z.leb_gt in E1. apply Z.leb_le in E2. lia.
Qed.

Lemma after_commits_step k rl rr :
  0 <= k -> after_commits k rl -> after_commits (k + 1) (CommitResult rl rr).
Proof.
  intros Hk (Hu & Hp0 & Hlow & Hhigh). unfold after_commits.
  cbn [used_rate_limit_ packets_per_sec_ CommitResult].
  assert (Hu' : u32 (used_rate_limit_ rl + 1) = (k + 1) mod 2 ^ 32).
  { unfold u32. rewrite Hu. apply Zplus_mod_idemp_l. }
  split; [exact Hu'|].
  unfold TOTAL_PACKETS_PER_SEC, PACKETS_PER_SEC in *.
  destruct (used_rate_limit_ rl =? 25000) eqn:E.
  - apply Z.eqb_eq in E.
    assert (Hle : 0 <= packets_per_sec_ rl <= 25).
    { destruct (Z_le_gt_dec k 25000); [rewrite Hlow by lia; lia|].
      specialize (Hhigh ltac:(lia)). lia. }
    rewrite halve_div2 by lia.
    split; [Z.div_mod_to_equations; lia|]. split.
    + intros Hk1. assert (k mod 2 ^ 32 = k) by (apply Z.mod_small; lia). lia.
    + intros _. destruct (Z_le_gt_dec k 25000) as [Hl|Hg].
      * rewrite (Hlow Hl). reflexivity.
      * specialize (Hhigh ltac:(lia)). Z.div_mod_to_equations; lia.
  - apply Z.eqb_neq in E. split; [exact Hp0|]. split.
    + intros Hk1. apply Hlow. lia.
    + intros Hk1. apply Hhigh.
      assert (k <> 25000); [|lia].
      intros ->. apply E. rewrite Hu. reflexivity.
Qed.

Lemma after_commits_all (rrs : list RateLimitResult) : forall k rl,
  0 <= k -> after_commits k rl ->
  after_commits (k + Z.of_nat (length rrs)) (commit_all rl rrs).
Proof.
  induction rrs as [|rr rrs IH]; intros k rl Hk H.
  - simpl. rewrite Z.add_0_r. exact H.
  - rewrite commit_all_cons.
    replace (k + Z.of_nat (length (rr :: rrs)))
      with (k + 1 + Z.of_nat (length rrs)) by (cbn [length]; lia).
    apply IH; [lia|]. apply after_commits_step; assumption.
Qed.

Lemma after_commits_new : after_commits 0 WgRateLimit_new.
Proof.
  unfold after_commits, WgRateLimit_new, PACKETS_PER_SEC, TOTAL_PACKETS_PER_SEC.
  cbn [used_rate_limit_ packets_per_sec_].
  split; [reflexivity|]. repeat split; lia.
Qed.

Lemma is_used_spec (rl : WgRateLimit) :
  is_used rl = true
  <-> used_rate_limit_ rl <> 0 \/ packets_per_sec_ rl <> PACKETS_PER_SEC.
Proof.
  unfold is_used. rewrite orb_true_iff, !negb_true_iff, !Z.eqb_neq. reflexivity.
Qed.

(** C4: the limiter has two bins of 4096 byte entries; a source is
    rate-limited exactly when the smaller of its two bin values has reached
    [PACKET_ACCUM] = 100; [packets_per_sec_] starts at 25; and, each
    [CommitResult] counting one packet, the commit that brings the count of a
    period above 25000 halves [packets_per_sec_] (rounding up, so that it
    goes down to the floor of 1 and never to 0): from 25 it becomes 13. *)
Theorem rate_limiter_bins_threshold_and_decay :
  BINSIZE = 4096
  /\ length (bins_ WgRateLimit_new) = (2 * 4096)%nat
  /\ PACKET_ACCUM = 100
  /\ (forall hash1 hash2 rl ip,
        is_rate_limited (CheckRateLimit hash1 hash2 rl ip) = true
        <-> PACKET_ACCUM <= Z.min (bin_value rl (slot1 hash1 ip))
                                  (bin_value rl (slot2 hash2 ip)))
  /\ packets_per_sec_ WgRateLimit_new = 25
  /\ (forall rl rrs,
        used_rate_limit_ rl = 0 ->
        Z.of_nat (length rrs) < 2 ^ 32 ->
        used_rate_limit_ (commit_all rl rrs) = Z.of_nat (length rrs)
        /\ packets_per_sec_ (commit_all rl rrs)
           = if 25000 <? Z.of_nat (length rrs)
             then Z.shiftr (u32 (packets_per_sec_ rl + 1)) 1
             else packets_per_sec_ rl)
  /\ (forall rrs,
        Z.of_nat (length rrs) < 2 ^ 32 ->
        packets_per_sec_ (commit_all WgRateLimit_new rrs)
        = if 25000 <? Z.of_nat (length rrs) then 13 else 25)
  /\ (forall p, 1 <= p < 2 ^ 32 - 1 ->
        Z.shiftr (u32 (p + 1)) 1 = (p + 1) / 2
        /\ 1 <= (p + 1) / 2 <= p
        /\ (1 < p -> (p + 1) / 2 < p)).
Proof.
  split; [reflexivity|]. split; [reflexivity|]. split; [reflexivity|].
  split.
  { intros hash1 hash2 rl ip. unfold is_rate_limited, CheckRateLimit.
    cbn [is_ok]. destruct (Z.min _ _ <? PACKET_ACCUM) eqn:E.
    - apply Z.ltb_lt in E. split; [discriminate|lia].
    - apply Z.ltb_ge in E. split; [intros _; exact E|reflexivity]. }
  split; [reflexivity|].
  assert (Hgen : forall rl rrs,
    used_rate_limit_ rl = 0 ->
    Z.of_nat (length rrs) < 2 ^ 32 ->
    used_rate_limit_ (commit_all rl rrs) = Z.of_nat (length rrs)
    /\ packets_per_sec_ (commit_all rl rrs)
       = if 25000 <? Z.of_nat (length rrs)
         then Z.shiftr (u32 (packets_per_sec_ rl + 1)) 1
         else packets_per_sec_ rl).
  { intros rl rrs Hu Hlen. split.
    - rewrite commit_all_used; lia.
    - rewrite commit_all_packets_per_sec by lia. rewrite Hu. reflexivity. }
  split; [exact Hgen|]. split.
  { intros rrs Hlen.
    destruct (Hgen WgRateLimit_new rrs eq_refl Hlen) as [_ ->].
    destruct (25000 <? _); reflexivity. }
  intros p Hp. split; [apply halve_div2; lia|]. apply halve_bounds. lia.
Qed.

(** The 25001st commit of a period halves the token counter of a fresh
    limiter, and no commit before or after it. *)
Example commit_all_25001 :
  let rr := mkRateLimitResult 7 1 1 in
  map (fun k => packets_per_sec_ (commit_all WgRateLimit_new (replicate (Z.to_nat k) rr)))
      [0; 1; 25000; 25001; 25002; 30000]
  = [25; 25; 25; 13; 13; 13].
Proof. vm_compute. reflexivity. Qed.

(** C5: a [RateLimitResult] carries a pointer to a bin entry and a proposed
    value; [CommitResult] stores exactly that value through the pointer and
    leaves every other entry as it was; [is_rate_limited] holds exactly when
    [is_ok] is zero, and [is_first_ip] exactly when the proposed value is 1. *)
Theorem CommitResult_writes_proposed_value (rl : WgRateLimit) (rr : RateLimitResult) :
  (value_ptr rr < length (bins_ rl))%nat ->
  bins_ (CommitResult rl rr) !! value_ptr rr = Some (new_value rr)
  /\ (forall p, p <> value_ptr rr -> bins_ (CommitResult rl rr) !! p = bins_ rl !! p)
  /\ length (bins_ (CommitResult rl rr)) = length (bins_ rl)
  /\ (is_rate_limited rr = true <-> is_ok rr = 0)
  /\ (is_first_ip rr = true <-> new_value rr = 1).
Proof.
  intros Hptr. cbn [bins_ CommitResult]. split.
  { apply list_lookup_insert_eq. exact Hptr. }
  split.
  { intros p Hp. apply list_lookup_insert_ne. congruence. }
  split; [apply length_insert|].
  unfold is_rate_limited, is_first_ip. split; apply Z.eqb_eq.
Qed.

Lemma CommitResult_writes_proposed_value_witness :
  bins_ (CommitResult WgRateLimit_new (mkRateLimitResult 4101 1 1)) !! 4101%nat
  = Some 1.
Proof.
  apply (CommitResult_writes_proposed_value WgRateLimit_new (mkRateLimitResult 4101 1 1)).
  cbn [bins_ WgRateLimit_new value_ptr]. rewrite length_replicate.
  unfold BINSIZE. lia.
Defined.

(** C9: [is_used] is true exactly when [used_rate_limit_] is not 0, as it is
    after at least one commit since it was last 0, or [packets_per_sec_] is
    not [PACKETS_PER_SEC] = 25.  A limiter with nothing committed and an
    undecayed token counter, a fresh one in particular, is not used; a fresh
    limiter is used after any commit. *)
Theorem is_used_iff_committed_or_decayed :
  (forall rl, is_used rl = true
     <-> used_rate_limit_ rl <> 0 \/ packets_per_sec_ rl <> PACKETS_PER_SEC)
  /\ PACKETS_PER_SEC = 25
  /\ (forall rl, used_rate_limit_ rl = 0 -> packets_per_sec_ rl = PACKETS_PER_SEC ->
        is_used rl = false)
  /\ is_used WgRateLimit_new = false
  /\ (forall rl rrs, used_rate_limit_ rl = 0 ->
        0 < Z.of_nat (length rrs) < 2 ^ 32 ->
        used_rate_limit_ (commit_all rl rrs) <> 0)
  /\ (forall rrs, rrs <> [] -> is_used (commit_all WgRateLimit_new rrs) = true).
Proof.
  split; [exact is_used_spec|]. split; [reflexivity|]. split.
  { intros rl Hu Hp. unfold is_used. rewrite Hu, Hp. reflexivity. }
  split; [reflexivity|]. split.
  { intros rl rrs Hu Hlen. rewrite commit_all_used; lia. }
  intros rrs Hne. apply is_used_spec.
  pose proof (after_commits_all rrs 0 WgRateLimit_new (Z.le_refl 0) after_commits_new)
    as (Hu & _ & Hlow & Hhigh).
  assert (Hpos : 0 < Z.of_nat (length rrs)) by (destruct rrs; [congruence|cbn [length]; lia]).
  rewrite Z.add_0_l in *.
  destruct (Z_le_gt_dec (Z.of_nat (length rrs)) TOTAL_PACKETS_PER_SEC) as [Hl|Hg].
  - left. rewrite Hu. unfold TOTAL_PACKETS_PER_SEC in Hl.
    rewrite Z.mod_small by lia. lia.
  - right. specialize (Hhigh ltac:(lia)). unfold PACKETS_PER_SEC. lia.
Qed.

(** ** The send queue *)

Section PeerQueueFacts.
Context {Packet : Type}.
Implicit Types (q : PeerQueue Packet) (p : Packet) (ps : list Packet).

Lemma AddPacketToPeerQueue_below q p :
  queue_ok q ->
  num_queued_packets_ q < MAX_QUEUED_PACKETS_PER_PEER ->
  AddPacketToPeerQueue q p
  = {| num_queued_packets_ := num_queued_packets_ q + 1;
       queued_packets_ := queued_packets_ q ++ [p] |}.
Proof.
  intros [Hn Hb] Hlt. unfold AddPacketToPeerQueue.
  replace (MAX_QUEUED_PACKETS_PER_PEER <=? num_queued_packets_ q) with false
    by (symmetry; apply Z.leb_gt; exact Hlt).
  f_equal. unfold u8. apply Z.mod_small.
  unfold MAX_QUEUED_PACKETS_PER_PEER in *. lia.
Qed.

Lemma AddPacketToPeerQueue_full q p :
  queue_ok q ->
  num_queued_packets_ q = MAX_QUEUED_PACKETS_PER_PEER ->
  AddPacketToPeerQueue q p
  = {| num_queued_packets_ := MAX_QUEUED_PACKETS_PER_PEER;
       queued_packets_ := tail (queued_packets_ q) ++ [p] |}.
Proof.
  intros [Hn Hb] Hfull. unfold AddPacketToPeerQueue.
  replace (MAX_QUEUED_PACKETS_PER_PEER <=? num_queued_packets_ q) with true
    by (symmetry; apply Z.leb_le; lia).
  unfold drop_oldest. destruct (queued_packets_ q) as [|p0 rest] eqn:E.
  - exfalso. cbn [length] in Hn. rewrite Hfull in Hn. discriminate Hn.
  - cbn [num_queued_packets_ queued_packets_ tail]. rewrite Hfull. reflexivity.
Qed.

Lemma AddPacketToPeerQueue_ok q p :
  queue_ok q -> queue_ok (AddPacketToPeerQueue q p).
Proof.
  intros Hq. pose proof Hq as [Hn Hb].
  destruct (Z_lt_ge_dec (num_queued_packets_ q) MAX_QUEUED_PACKETS_PER_PEER) as [Hlt|Hge].
  - rewrite AddPacketToPeerQueue_below by assumption.
    unfold queue_ok. cbn [num_queued_packets_ queued_packets_].
    rewrite length_app. cbn [length]. lia.
  - assert (Hfull : num_queued_packets_ q = MAX_QUEUED_PACKETS_PER_PEER) by lia.
    rewrite AddPacketToPeerQueue_full by assumption.
    unfold queue_ok. cbn [num_queued_packets_ queued_packets_].
    rewrite length_app. cbn [length]. split; [|lia].
    destruct (queued_packets_ q) as [|p0 rest].
    + cbn [length] in Hn. rewrite Hfull in Hn. discriminate Hn.
    + cbn [tail length] in *. lia.
Qed.

Lemma add_all_ok ps : forall q, queue_ok q -> queue_ok (add_all q ps).
Proof.
  induction ps as [|p ps IH]; intros q Hq; [exact Hq|].
  cbn [add_all fold_left]. apply IH. apply AddPacketToPeerQueue_ok. exact Hq.
Qed.

Lemma PeerQueue_empty_ok : queue_ok (@PeerQueue_empty Packet).
Proof. split; [reflexivity|]. unfold MAX_QUEUED_PACKETS_PER_PEER. cbn. lia. Qed.

(** C7: the send queue of a peer never holds more than
    [MAX_QUEUED_PACKETS_PER_PEER] = 128 packets: [AddPacketToPeerQueue]
    keeps [num_queued_packets_] equal to the length of the queue and at
    most 128; below the bound the packet goes to the end of the queue, and
    on a full queue the oldest packet is dropped first.  So it is after any
    number of additions. *)
Theorem AddPacketToPeerQueue_bounded q p ps :
  queue_ok q ->
  MAX_QUEUED_PACKETS_PER_PEER = 128
  /\ queue_ok (AddPacketToPeerQueue q p)
  /\ num_queued_packets_ (AddPacketToPeerQueue q p) <= 128
  /\ Z.of_nat (length (queued_packets_ (AddPacketToPeerQueue q p))) <= 128
  /\ (num_queued_packets_ q < 128 ->
        queued_packets_ (AddPacketToPeerQueue q p) = queued_packets_ q ++ [p])
  /\ (num_queued_packets_ q = 128 ->
        queued_packets_ (AddPacketToPeerQueue q p) = tail (queued_packets_ q) ++ [p]
        /\ num_queued_packets_ (AddPacketToPeerQueue q p) = 128)
  /\ queue_ok (add_all q ps)
  /\ Z.of_nat (length (queued_packets_ (add_all q ps))) <= 128
  /\ queue_ok (add_all PeerQueue_empty ps).
Proof.
  intros Hq. split; [reflexivity|].
  pose proof (AddPacketToPeerQueue_ok q p Hq) as Hq1.
  pose proof (add_all_ok ps q Hq) as Hq2.
  split; [exact Hq1|]. split; [apply Hq1|].
  split; [destruct Hq1 as [<- H]; exact H|]. split.
  { intros Hlt. rewrite AddPacketToPeerQueue_below by assumption. reflexivity. }
  split.
  { intros Hfull. rewrite AddPacketToPeerQueue_full by assumption.
    split; reflexivity. }
  split; [exact Hq2|]. split; [destruct Hq2 as [<- H]; exact H|].
  apply add_all_ok, PeerQueue_empty_ok.
Qed.
End PeerQueueFacts.

(** Of 200 packets queued one after the other the last 128 are kept. *)
Example add_all_200 :
  add_all PeerQueue_empty (seq 0 200) = mkPeerQueue 128 (seq 72 128).
Proof. vm_compute. reflexivity. Qed.

Lemma AddPacketToPeerQueue_bounded_witness :
  queued_packets_
    (AddPacketToPeerQueue (mkPeerQueue 128 (seq 0 128)) 128%nat)
  = seq 1 128.
Proof.
  pose proof (AddPacketToPeerQueue_bounded
                (mkPeerQueue 128 (seq 0 128)) 128%nat []) as H.
  assert (Hok : queue_ok (mkPeerQueue 128 (seq 0 128))).
  { split; [reflexivity|]. unfold MAX_QUEUED_PACKETS_PER_PEER. cbn. lia. }
  destruct (H Hok) as (_ & _ & _ & _ & _ & Hfull & _).
  destruct (Hfull eq_refl) as [-> _]. reflexivity.
Defined.

(** ** Handshake timestamps *)

Lemma memcmp_cons (x y : Z) (a b : list Z) :
  memcmp (x :: a) (y :: b)
  = match x ?= y with Eq => memcmp a b | c => c end.
Proof. reflexivity. Qed.

Lemma memcmp_refl (a : list Z) : memcmp a a = Eq.
Proof.
  induction a as [|x a IH]; [reflexivity|].
  rewrite memcmp_cons, Z.compare_refl. exact IH.
Qed.

Lemma memcmp_gt_trans (a : list Z) : forall b c,
  memcmp a b = Gt -> memcmp b c = Gt -> memcmp a c = Gt.
Proof.
  induction a as [|x a IH]; intros [|y b] [|z c] Hab Hbc;
    try discriminate; try reflexivity.
  rewrite memcmp_cons in *.
  destruct (Z.compare_spec x y) as [Hxy|Hxy|Hxy]; try discriminate;
    destruct (Z.compare_spec y z) as [Hyz|Hyz|Hyz]; try discriminate.
  - subst. rewrite Z.compare_refl. eapply IH; eassumption.
  - subst. replace (y ?= z) with Gt by (symmetry; apply Z.compare_gt_iff; lia).
    reflexivity.
  - subst. replace (x ?= z) with Gt by (symmetry; apply Z.compare_gt_iff; lia).
    reflexivity.
  - replace (x ?= z) with Gt by (symmetry; apply Z.compare_gt_iff; lia).
    reflexivity.
Qed.

Lemma ParseMessageHandshakeInitiation_accepts (p p' : PeerTimestamp) (m : Initiation) :
  ParseMessageHandshakeInitiation p m = (p', true) ->
  init_checks_ok m = true
  /\ memcmp (init_timestamp m) (last_timestamp_ p) = Gt
  /\ last_timestamp_ p' = init_timestamp m.
Proof.
  unfold ParseMessageHandshakeInitiation.
  destruct (init_checks_ok m); [|discriminate].
  destruct (memcmp _ _); try discriminate.
  intros H. inversion H. auto.
Qed.

Lemma ParseMessageHandshakeInitiation_rejects (p p' : PeerTimestamp) (m : Initiation) :
  ParseMessageHandshakeInitiation p m = (p', false) -> p' = p.
Proof.
  unfold ParseMessageHandshakeInitiation.
  destruct (init_checks_ok m); [destruct (memcmp _ _)|];
    intros H; inversion H; reflexivity.
Qed.

Lemma receive_initiations_increasing (ms : list Initiation) : forall p,
  strictly_increasing (last_timestamp_ p) (snd (receive_initiations p ms)).
Proof.
  induction ms as [|m ms IH]; intros p; [exact I|].
  cbn [receive_initiations].
  destruct (ParseMessageHandshakeInitiation p m) as [p1 ok] eqn:E.
  specialize (IH p1).
  destruct (receive_initiations p1 ms) as [p2 acc]. cbn [snd] in *.
  destruct ok.
  - apply ParseMessageHandshakeInitiation_accepts in E as (_ & Hgt & Hlast).
    rewrite Hlast in IH. split; assumption.
  - apply ParseMessageHandshakeInitiation_rejects in E. subst p1. exact IH.
Qed.

Lemma last_cons_default {A : Type} (l : list A) : forall x d,
  List.last (x :: l) d = List.last l x.
Proof.
  induction l as [|y l IH]; intros x d; [reflexivity|].
  change (List.last (x :: y :: l) d) with (List.last (y :: l) d).
  rewrite !IH. reflexivity.
Qed.

Lemma receive_initiations_last (ms : list Initiation) : forall p,
  last_timestamp_ (fst (receive_initiations p ms))
  = List.last (snd (receive_initiations p ms)) (last_timestamp_ p).
Proof.
  induction ms as [|m ms IH]; intros p; [reflexivity|].
  cbn [receive_initiations].
  destruct (ParseMessageHandshakeInitiation p m) as [p1 ok] eqn:E.
  specialize (IH p1).
  destruct (receive_initiations p1 ms) as [p2 acc]. cbn [fst snd] in *.
  destruct ok.
  - apply ParseMessageHandshakeInitiation_accepts in E as (_ & _ & Hlast).
    rewrite Hlast in IH. rewrite IH. symmetry. apply last_cons_default.
  - apply ParseMessageHandshakeInitiation_rejects in E. subst p1. exact IH.
Qed.

Lemma strictly_increasing_above (tss : list (list Z)) : forall prev ts,
  strictly_increasing prev tss -> In ts tss -> memcmp ts prev = Gt.
Proof.
  induction tss as [|t tss IH]; intros prev ts Hinc Hin; [destruct Hin|].
  destruct Hinc as [Hgt Hrest]. destruct Hin as [->|Hin]; [exact Hgt|].
  eapply memcmp_gt_trans; [|exact Hgt]. apply IH; assumption.
Qed.

Lemma strictly_increasing_pairwise (tss : list (list Z)) : forall prev i j a b,
  strictly_increasing prev tss ->
  (i < j)%nat -> tss !! i = Some a -> tss !! j = Some b ->
  memcmp b a = Gt.
Proof.
  induction tss as [|t tss IH]; intros prev i j a b Hinc Hij Ha Hb;
    [discriminate Ha|].
  destruct Hinc as [Hgt Hrest].
  destruct j as [|j]; [lia|]. cbn in Hb.
  destruct i as [|i].
  - cbn in Ha. inversion Ha; subst t.
    eapply strictly_increasing_above; [exact Hrest|].
    apply list_elem_of_In. eapply list_elem_of_lookup_2. exact Hb.
  - cbn in Ha. eapply IH; [exact Hrest| |exact Ha|exact Hb]. lia.
Qed.

(** A peer that last accepted the timestamp ...01 accepts ...03, then rejects
    ...02 and ...03 again and an initiation that fails its other checks, and
    accepts ...0100, which is above in byte order. *)
Example receive_initiations_example :
  let ts (hi lo : Z) := [0; 0; 0; 0; 0; 0; 0; 0; 0; 0; hi; lo] in
  receive_initiations {| last_timestamp_ := ts 0 1 |}
    [ mkInitiation true (ts 0 3); mkInitiation true (ts 0 2);
      mkInitiation true (ts 0 3); mkInitiation false (ts 0 9);
      mkInitiation true (ts 1 0) ]
  = ({| last_timestamp_ := ts 1 0 |}, [ts 0 3; ts 1 0]).
Proof. vm_compute. reflexivity. Qed.

(** C8: the stored [last_timestamp_] of a peer strictly increases across
    accepted initiations.  An initiation is accepted only if its timestamp is
    strictly above the peer's last accepted one, and then becomes it; so, of
    the initiations a peer accepts, each carries a timestamp strictly above
    that of the one accepted before it, and above that of every earlier one. *)
Theorem last_timestamp_strictly_increases (p : PeerTimestamp) (ms : list Initiation) :
  (forall m p', ParseMessageHandshakeInitiation p m = (p', true) ->
     memcmp (init_timestamp m) (last_timestamp_ p) = Gt
     /\ last_timestamp_ p' = init_timestamp m
     /\ memcmp (last_timestamp_ p') (last_timestamp_ p) = Gt)
  /\ (forall m p', ParseMessageHandshakeInitiation p m = (p', false) -> p' = p)
  /\ (forall m, memcmp (init_timestamp m) (last_timestamp_ p) <> Gt ->
        ParseMessageHandshakeInitiation p m = (p, false))
  /\ strictly_increasing (last_timestamp_ p) (snd (receive_initiations p ms))
  /\ (forall i j a b,
        (i < j)%nat ->
        snd (receive_initiations p ms) !! i = Some a ->
        snd (receive_initiations p ms) !! j = Some b ->
        memcmp b a = Gt)
  /\ last_timestamp_ (fst (receive_initiations p ms))
     = List.last (snd (receive_initiations p ms)) (last_timestamp_ p).
Proof.
  split.
  { intros m p' H.
    apply ParseMessageHandshakeInitiation_accepts in H as (_ & Hgt & Hlast).
    rewrite Hlast. auto. }
  split; [intros m p'; apply ParseMessageHandshakeInitiation_rejects|].
  split.
  { intros m Hngt. unfold ParseMessageHandshakeInitiation.
    destruct (init_checks_ok m); [|reflexivity].
    destruct (memcmp _ _); try reflexivity. congruence. }
  split; [apply receive_initiations_increasing|].
  split; [|apply receive_initiations_last].
  intros i j a b. eapply strictly_increasing_pairwise.
  apply receive_initiations_increasing.
Qed.

(** ** The replay detector *)

(** *** Words and bits *)

Lemma BITMAP_SIZE_value : BITMAP_SIZE = 64.
Proof. reflexivity. Qed.

Lemma slot_index_mod (s : Z) : 0 <= s -> Z.of_nat (slot_index s) = s mod 64.
Proof.
  intros Hs. unfold slot_index. change BITMAP_MASK with (Z.ones 6).
  rewrite Z.land_ones by lia. change (2 ^ 6) with 64.
  rewrite Z2Nat.id; [reflexivity|]. apply Z.mod_pos_bound. lia.
Qed.

Lemma slot_index_lt (s : Z) : 0 <= s -> (slot_index s < 64)%nat.
Proof.
  intros Hs. pose proof (slot_index_mod s Hs) as H.
  pose proof (Z.mod_pos_bound s 64 ltac:(lia)). lia.
Qed.

Lemma slot_index_ne (a b : Z) :
  0 <= a -> a < b < a + 64 -> slot_index a <> slot_index b.
Proof.
  intros Ha Hab Heq. apply (f_equal Z.of_nat) in Heq.
  rewrite !slot_index_mod in Heq by lia.
  Z.div_mod_to_equations. lia.
Qed.

Lemma slot_index_congr (a b : Z) :
  0 <= a -> 0 <= b -> a mod 64 = b mod 64 -> slot_index a = slot_index b.
Proof.
  intros Ha Hb Heq. apply Nat2Z.inj. rewrite !slot_index_mod by lia. exact Heq.
Qed.

Lemma bit_position (seq : Z) : Z.land seq (BITS_PER_ENTRY - 1) = seq mod 32.
Proof.
  change (BITS_PER_ENTRY - 1) with (Z.ones 5).
  rewrite Z.land_ones by lia. reflexivity.
Qed.

Lemma bit_mask_pow2 (seq : Z) : bit_mask seq = 2 ^ (seq mod 32).
Proof. unfold bit_mask. rewrite bit_position. apply Z.shiftl_1_l. Qed.

Lemma land_pow2_eqb (w b : Z) :
  0 <= b -> (Z.land w (2 ^ b) =? 0) = negb (Z.testbit w b).
Proof.
  intros Hb. destruct (Z.testbit w b) eqn:E; cbn [negb].
  - apply Z.eqb_neq. intros H0.
    assert (Ht : Z.testbit (Z.land w (2 ^ b)) b = true).
    { rewrite Z.land_spec, E, Z.pow2_bits_true by lia. reflexivity. }
    rewrite H0, Z.bits_0 in Ht. discriminate Ht.
  - apply Z.eqb_eq. apply Z.bits_inj'. intros k Hk.
    rewrite Z.land_spec, Z.bits_0, Z.pow2_bits_eqb by lia.
    destruct (Z.eqb_spec b k) as [->|Hne].
    + rewrite E. reflexivity.
    + apply andb_false_r.
Qed.

Lemma lor_pow2_testbit (w b k : Z) :
  0 <= b -> 0 <= k ->
  Z.testbit (Z.lor w (2 ^ b)) k = Z.testbit w k || (b =? k).
Proof. intros Hb Hk. rewrite Z.lor_spec, Z.pow2_bits_eqb by lia. reflexivity. Qed.

Lemma bitmap_index_mod (seq : Z) :
  0 <= seq -> Z.of_nat (bitmap_index seq) = (seq / 32) mod 64.
Proof.
  intros Hs. unfold bitmap_index. change BITS_PER_ENTRY with 32.
  apply slot_index_mod. apply Z.div_pos; lia.
Qed.

Lemma bitmap_index_lt (seq : Z) : 0 <= seq -> (bitmap_index seq < 64)%nat.
Proof.
  intros Hs. unfold bitmap_index. change BITS_PER_ENTRY with 32.
  apply slot_index_lt. apply Z.div_pos; lia.
Qed.

(** Two counters less than 64 slots apart with the same word and the same
    bit are the same counter. *)
Lemma same_word_same_bit (m n : Z) :
  0 <= m -> 0 <= n ->
  m / 32 < n / 32 + 64 -> n / 32 < m / 32 + 64 ->
  bitmap_index m = bitmap_index n -> m mod 32 = n mod 32 -> m = n.
Proof.
  intros Hm Hn H1 H2 Hi Hb. apply (f_equal Z.of_nat) in Hi.
  rewrite !bitmap_index_mod in Hi by lia.
  Z.div_mod_to_equations. lia.
Qed.

Lemma test_and_set_result (rd : ReplayDetector) (seq : Z) :
  snd (test_and_set rd seq) = negb (bit_of (bitmap_ rd) seq).
Proof.
  unfold test_and_set, bit_of. cbn [snd]. rewrite bit_mask_pow2.
  apply land_pow2_eqb. apply Z.mod_pos_bound. lia.
Qed.

Lemma test_and_set_expected (rd : ReplayDetector) (seq : Z) :
  expected_seq_nr_ (fst (test_and_set rd seq)) = expected_seq_nr_ rd.
Proof. reflexivity. Qed.

Lemma test_and_set_length (rd : ReplayDetector) (seq : Z) :
  length (bitmap_ (fst (test_and_set rd seq))) = length (bitmap_ rd).
Proof. cbn. apply length_insert. Qed.

(** After the bit of [n] is set, the bit of [m] is set if it was, or if it is
    the same bit of the same word. *)
Lemma test_and_set_bit_of (rd : ReplayDetector) (n m : Z) :
  0 <= n -> 0 <= m -> length (bitmap_ rd) = 64%nat ->
  bit_of (bitmap_ (fst (test_and_set rd n))) m
  = bit_of (bitmap_ rd) m
    || (bool_decide (bitmap_index m = bitmap_index n) && (n mod 32 =? m mod 32)).
Proof.
  intros Hn Hm Hlen. unfold test_and_set, bit_of. cbn [fst bitmap_].
  rewrite bit_mask_pow2.
  assert (0 <= n mod 32 < 32) by (apply Z.mod_pos_bound; lia).
  assert (0 <= m mod 32 < 32) by (apply Z.mod_pos_bound; lia).
  destruct (bool_decide_reflect (bitmap_index m = bitmap_index n)) as [Heq|Hne].
  - rewrite Heq. rewrite list_lookup_insert_eq
      by (rewrite Hlen; apply bitmap_index_lt; exact Hn).
    cbn [default andb]. apply lor_pow2_testbit; lia.
  - rewrite list_lookup_insert_ne by congruence.
    cbn [andb]. rewrite orb_false_r. reflexivity.
Qed.

(** *** Clearing words *)

Lemma clear_words_length (n : nat) : forall bm first,
  length (clear_words bm first n) = length bm.
Proof.
  induction n as [|n IH]; intros bm first; [reflexivity|].
  cbn [clear_words]. rewrite IH. apply length_insert.
Qed.

(** A word outside the cleared slots is left as it was. *)
Lemma clear_words_other (n : nat) : forall bm first i,
  (forall j, 0 <= j < Z.of_nat n -> slot_index (first + j) <> i) ->
  clear_words bm first n !! i = bm !! i.
Proof.
  induction n as [|n IH]; intros bm first i Hout; [reflexivity|].
  cbn [clear_words]. rewrite IH.
  - apply list_lookup_insert_ne.
    specialize (Hout 0 ltac:(lia)). rewrite Z.add_0_r in Hout. exact Hout.
  - intros j Hj. replace (first + 1 + j) with (first + (j + 1)) by lia.
    apply Hout. lia.
Qed.

Lemma clear_words_zero_stays (n : nat) : forall bm first i,
  bm !! i = Some 0 -> clear_words bm first n !! i = Some 0.
Proof.
  induction n as [|n IH]; intros bm first i H0; [exact H0|].
  cbn [clear_words]. apply IH.
  destruct (decide (slot_index first = i)) as [<-|Hne].
  - apply list_lookup_insert_eq. eapply lookup_lt_Some. exact H0.
  - rewrite list_lookup_insert_ne by exact Hne. exact H0.
Qed.

(** A word of a cleared slot is zero. *)
Lemma clear_words_cleared (n : nat) : forall bm first i j,
  (i < length bm)%nat ->
  0 <= j < Z.of_nat n -> slot_index (first + j) = i ->
  clear_words bm first n !! i = Some 0.
Proof.
  induction n as [|n IH]; intros bm first i j Hi Hj Hslot; [lia|].
  cbn [clear_words].
  destruct (Z.eq_dec j 0) as [->|Hj0].
  - rewrite Z.add_0_r in Hslot. subst i.
    apply clear_words_zero_stays. apply list_lookup_insert_eq. exact Hi.
  - apply (IH _ _ _ (j - 1)).
    + rewrite length_insert. exact Hi.
    + lia.
    + replace (first + 1 + (j - 1)) with (first + j) by lia. exact Hslot.
Qed.

Lemma bit_of_clear_words_other (n : nat) (bm : list Z) (first m : Z) :
  (forall j, 0 <= j < Z.of_nat n -> slot_index (first + j) <> bitmap_index m) ->
  bit_of (clear_words bm first n) m = bit_of bm m.
Proof. intros H. unfold bit_of. rewrite clear_words_other by exact H. reflexivity. Qed.

Lemma bit_of_clear_words_cleared (n : nat) (bm : list Z) (first m j : Z) :
  length bm = 64%nat -> 0 <= m ->
  0 <= j < Z.of_nat n -> slot_index (first + j) = bitmap_index m ->
  bit_of (clear_words bm first n) m = false.
Proof.
  intros Hlen Hm Hj Hslot. unfold bit_of.
  rewrite (clear_words_cleared n bm first _ j); try assumption.
  - cbn [default]. apply Z.bits_0.
  - rewrite Hlen. apply bitmap_index_lt. exact Hm.
Qed.

(** *** The invariant of the detector *)

Lemma highest_cons (x : Z) (acc : list Z) :
  highest (x :: acc) = Z.max x (highest acc).
Proof. reflexivity. Qed.

Lemma highest_ge (acc : list Z) : -1 <= highest acc.
Proof.
  induction acc as [|x acc IH]; [reflexivity|]. rewrite highest_cons. lia.
Qed.

Lemma highest_In (acc : list Z) (m : Z) : In m acc -> m <= highest acc.
Proof.
  induction acc as [|x acc IH]; [intros []|].
  rewrite highest_cons. intros [->|Hin]; [lia|]. specialize (IH Hin). lia.
Qed.

Lemma highest_app (a b : list Z) : highest (a ++ b) = Z.max (highest a) (highest b).
Proof.
  induction a as [|x a IH].
  - cbn [app]. change (highest []) with (-1). pose proof (highest_ge b). lia.
  - cbn [app]. rewrite !highest_cons, IH. lia.
Qed.

Lemma detector_ok_new : detector_ok ReplayDetector_new [].
Proof.
  unfold detector_ok. cbn [ReplayDetector_new bitmap_ expected_seq_nr_].
  split; [reflexivity|]. split; [reflexivity|].
  split; [unfold UINT64_MAX; lia|].
  split; [intros m []|].
  intros m Hm Hlt _. unfold first_free_slot in Hlt. exfalso.
  Z.div_mod_to_equations. lia.
Qed.

Lemma bitmap_exact_same_members (bm : list Z) (first : Z) (acc acc' : list Z) :
  (forall m, In m acc <-> In m acc') ->
  bitmap_exact bm first acc -> bitmap_exact bm first acc'.
Proof.
  intros Hsame Hex m Hm H1 H2. rewrite <- Hsame. apply Hex; assumption.
Qed.

(** Setting the bit of a counter of the window records it. *)
Lemma bitmap_exact_set (rd : ReplayDetector) (first n : Z) (acc : list Z) :
  bitmap_exact (bitmap_ rd) first acc ->
  length (bitmap_ rd) = 64%nat ->
  0 <= n -> n / 32 < first -> first <= n / 32 + 64 ->
  bitmap_exact (bitmap_ (fst (test_and_set rd n))) first (acc ++ [n]).
Proof.
  intros Hex Hlen Hn Hn1 Hn2 m Hm H1 H2.
  rewrite test_and_set_bit_of by assumption.
  rewrite orb_true_iff, andb_true_iff, bool_decide_eq_true, Z.eqb_eq, in_app_iff.
  rewrite (Hex m Hm H1 H2). cbn [In]. split.
  - intros [Hin|[Hidx Hbit]]; [left; exact Hin|right; left].
    symmetry. apply same_word_same_bit; try assumption; try lia.
  - intros [Hin|[->|[]]]; [left; exact Hin|right]. split; reflexivity.
Qed.

(** Moving the window up keeps the accepted counters that stay inside it and
    leaves the slots it newly covers empty. *)
Lemma bitmap_exact_advance (bm : list Z) (first first1 : Z) (acc : list Z) :
  bitmap_exact bm first acc ->
  length bm = 64%nat ->
  0 <= first <= first1 ->
  (forall m, In m acc -> m / 32 < first) ->
  bitmap_exact (clear_words bm first (Z.to_nat (Z.min (first1 - first) 64))) first1 acc.
Proof.
  intros Hex Hlen Hfirst Hacc m Hm H1 H2.
  destruct (Z_lt_ge_dec (m / 32) first) as [Hlow|Hhigh].
  - rewrite bit_of_clear_words_other.
    + apply Hex; lia.
    + intros j Hj. unfold bitmap_index. change BITS_PER_ENTRY with 32.
      intros Heq. symmetry in Heq. revert Heq. apply slot_index_ne.
      * apply Z.div_pos; lia.
      * lia.
  - split; [|intros Hin; specialize (Hacc m Hin); lia].
    intros Hbit. exfalso.
    assert (Hclr : bit_of (clear_words bm first (Z.to_nat (Z.min (first1 - first) 64))) m
                   = false).
    { apply (bit_of_clear_words_cleared _ _ _ _ ((m / 32 - first) mod 64));
        try assumption.
      - pose proof (Z.mod_pos_bound (m / 32 - first) 64 ltac:(lia)) as Hmod.
        split; [lia|].
        destruct (Z_le_gt_dec (first1 - first) 64) as [Hle|Hgt].
        + rewrite Z.min_l by lia. rewrite Z2Nat.id by lia.
          rewrite Z.mod_small by lia. lia.
        + rewrite Z.min_r by lia. change (Z.of_nat (Z.to_nat 64)) with 64. lia.
      - unfold bitmap_index. change BITS_PER_ENTRY with 32.
        pose proof (Z.mod_pos_bound (m / 32 - first) 64 ltac:(lia)) as Hmod.
        apply slot_index_congr; [lia|apply Z.div_pos; lia|].
        rewrite Zplus_mod_idemp_r. f_equal. lia. }
    rewrite Hclr in Hbit. discriminate Hbit.
Qed.

Lemma accepted_below_first_free (rd : ReplayDetector) (acc : list Z) (m : Z) :
  detector_ok rd acc -> In m acc ->
  0 < m < expected_seq_nr_ rd
  /\ m / 32 < first_free_slot (expected_seq_nr_ rd).
Proof.
  intros (_ & Hexp & _ & Hpos & _) Hin.
  pose proof (highest_In acc m Hin) as Hle. specialize (Hpos m Hin).
  unfold first_free_slot. split; [lia|].
  Z.div_mod_to_equations. lia.
Qed.

Lemma advance_window_bitmap (rd : ReplayDetector) (n : Z) :
  0 <= expected_seq_nr_ rd <= UINT64_MAX - 31 ->
  bitmap_ (advance_window rd n)
  = clear_words (bitmap_ rd) (first_free_slot (expected_seq_nr_ rd))
      (Z.to_nat (Z.min (n / 32 + 1 - first_free_slot (expected_seq_nr_ rd)) 64)).
Proof.
  intros He. unfold advance_window, first_free_slot. cbn [bitmap_].
  change BITS_PER_ENTRY with 32. change BITMAP_SIZE with 64.
  replace (u64 (expected_seq_nr_ rd + 32 - 1)) with (expected_seq_nr_ rd + 31);
    [reflexivity|].
  unfold u64. rewrite Z.mod_small; [lia|].
  unfold UINT64_MAX in He. lia.
Qed.

(** *** One inbound counter *)

Lemma u64_add_window (n : Z) :
  0 <= n < UINT64_MAX ->
  u64 (n + WINDOW_SIZE)
  = if n <? 2 ^ 64 - 2016 then n + 2016 else n + 2016 - 2 ^ 64.
Proof.
  intros Hn. unfold UINT64_MAX in Hn. unfold u64. change WINDOW_SIZE with 2016.
  destruct (Z.ltb_spec n (2 ^ 64 - 2016)) as [Hlt|Hge].
  - apply Z.mod_small. lia.
  - replace (n + 2016) with (n + 2016 - 2 ^ 64 + 1 * 2 ^ 64) at 1 by lia.
    rewrite Z_mod_plus_full. apply Z.mod_small. lia.
Qed.

(** A counter is accepted exactly when it is not zero, not below the window
    (as the 64-bit test of the window sees it) and not accepted before; the
    invariant goes on holding with the accepted counter recorded. *)
Lemma CheckReplay_step (rd : ReplayDetector) (acc : list Z) (n : Z) :
  detector_ok rd acc -> counter_in_range n ->
  (snd (CheckReplay rd n) = true
   <-> n <> 0 /\ expected_seq_nr_ rd <= u64 (n + WINDOW_SIZE) /\ ~ In n acc)
  /\ detector_ok (fst (CheckReplay rd n))
                 (if snd (CheckReplay rd n) then acc ++ [n] else acc).
Proof.
  intros Hok Hn. pose proof Hok as (Hlen & Hexp & Hmax & Hpos & Hex).
  pose proof (highest_ge acc) as Hh.
  pose proof (u64_add_window n Hn) as Hw.
  unfold counter_in_range, UINT64_MAX in Hn. unfold UINT64_MAX in Hmax.
  unfold CheckReplay.
  destruct (Z.eqb_spec n 0) as [Hz|Hnz].
  { cbn [fst snd]. split; [|exact Hok]. split; [discriminate|]. intros [H _]. contradiction. }
  destruct (Z.ltb_spec (u64 (n + WINDOW_SIZE)) (expected_seq_nr_ rd)) as [Hold|Hwin].
  { cbn [fst snd]. split; [|exact Hok]. split; [discriminate|]. intros (_ & H & _). lia. }
  destruct (Z.leb_spec (expected_seq_nr_ rd) n) as [Hnew|Hin_window].
  - (* the window moves up *)
    assert (He : 0 <= expected_seq_nr_ rd <= UINT64_MAX - 31).
    { unfold UINT64_MAX. destruct (Z.ltb_spec n (2 ^ 64 - 2016)); lia. }
    set (rd1 := advance_window rd n).
    assert (Hlen1 : length (bitmap_ rd1) = 64%nat).
    { unfold rd1. rewrite advance_window_bitmap by exact He.
      rewrite clear_words_length. exact Hlen. }
    assert (Hex1 : bitmap_exact (bitmap_ rd1) (n / 32 + 1) acc).
    { unfold rd1. rewrite advance_window_bitmap by exact He.
      apply bitmap_exact_advance; try assumption.
      - unfold first_free_slot. split; Z.div_mod_to_equations; lia.
      - intros m Hin. apply (accepted_below_first_free rd acc m Hok Hin). }
    assert (Hfresh : ~ In n acc).
    { intros Hin. pose proof (highest_In acc n Hin). lia. }
    assert (Hres : snd (test_and_set rd1 n) = true).
    { rewrite test_and_set_result. apply negb_true_iff.
      destruct (bit_of (bitmap_ rd1) n) eqn:E; [|reflexivity].
      exfalso. apply Hfresh. apply (Hex1 n); [lia|lia|lia|exact E]. }
    rewrite Hres.
    split; [split; [intros _; repeat split; [exact Hnz|exact Hwin|exact Hfresh]|reflexivity]|].
    assert (He1 : expected_seq_nr_ (fst (test_and_set rd1 n)) = n + 1).
    { rewrite test_and_set_expected. unfold rd1, advance_window.
      cbn [expected_seq_nr_]. unfold u64. apply Z.mod_small. lia. }
    unfold detector_ok. rewrite He1, test_and_set_length.
    split; [exact Hlen1|]. split; [rewrite highest_app; cbn; lia|].
    split; [unfold UINT64_MAX; lia|]. split.
    { intros m Hin. apply in_app_iff in Hin as [Hin|[<-|[]]]; [apply Hpos, Hin|lia]. }
    replace (first_free_slot (n + 1)) with (n / 32 + 1)
      by (unfold first_free_slot; Z.div_mod_to_equations; lia).
    apply bitmap_exact_set; try assumption; lia.
  - (* inside the window *)
    assert (Hwin' : expected_seq_nr_ rd <= n + 2016).
    { destruct (Z.ltb_spec n (2 ^ 64 - 2016)); lia. }
    assert (Hslot : n / 32 < first_free_slot (expected_seq_nr_ rd)
                    /\ first_free_slot (expected_seq_nr_ rd) <= n / 32 + 64).
    { unfold first_free_slot. split; Z.div_mod_to_equations; lia. }
    assert (Hbit : bit_of (bitmap_ rd) n = true <-> In n acc)
      by (apply Hex; lia).
    assert (Hset : bitmap_exact (bitmap_ (fst (test_and_set rd n)))
                     (first_free_slot (expected_seq_nr_ rd)) (acc ++ [n]))
      by (apply bitmap_exact_set; try assumption; lia).
    rewrite test_and_set_result. split.
    { rewrite negb_true_iff. split.
      - intros Hclear. repeat split; [exact Hnz|exact Hwin|].
        intros Hin. apply Hbit in Hin. congruence.
      - intros (_ & _ & Hfresh). destruct (bit_of (bitmap_ rd) n); [|reflexivity].
        exfalso. apply Hfresh, Hbit. reflexivity. }
    unfold detector_ok. rewrite test_and_set_expected, test_and_set_length.
    destruct (bit_of (bitmap_ rd) n) eqn:E; cbn [negb].
    + (* a replay: nothing is recorded *)
      split; [exact Hlen|]. split; [exact Hexp|]. split; [exact Hmax|].
      split; [exact Hpos|].
      apply (bitmap_exact_same_members _ _ (acc ++ [n])); [|exact Hset].
      intros m. rewrite in_app_iff. cbn [In]. split; [|tauto].
      intros [Hin|[<-|[]]]; [exact Hin|]. apply Hbit. reflexivity.
    + split; [exact Hlen|]. split; [rewrite highest_app; cbn; lia|].
      split; [exact Hmax|]. split; [|exact Hset].
      intros m Hin. apply in_app_iff in Hin as [Hin|[<-|[]]]; [apply Hpos, Hin|lia].
Qed.

Lemma receive_all_cons (rd : ReplayDetector) (n : Z) (seqs : list Z) :
  receive_all rd (n :: seqs)
  = (fst (receive_all (fst (CheckReplay rd n)) seqs),
     if snd (CheckReplay rd n)
     then n :: snd (receive_all (fst (CheckReplay rd n)) seqs)
     else snd (receive_all (fst (CheckReplay rd n)) seqs)).
Proof.
  cbn [receive_all]. destruct (CheckReplay rd n) as [rd1 ok]. cbn [fst snd].
  destruct (receive_all rd1 seqs) as [rd2 acc]. reflexivity.
Qed.

(** The invariant holds along any sequence of inbound counters. *)
Lemma receive_all_ok (seqs : list Z) : forall rd acc,
  detector_ok rd acc -> Forall counter_in_range seqs ->
  detector_ok (fst (receive_all rd seqs)) (acc ++ snd (receive_all rd seqs)).
Proof.
  induction seqs as [|n seqs IH]; intros rd acc Hok Hrange.
  - cbn. rewrite app_nil_r. exact Hok.
  - inversion Hrange as [|? ? Hn Hrest]; subst.
    rewrite receive_all_cons. cbn [fst snd].
    destruct (CheckReplay_step rd acc n Hok Hn) as [_ Hstep].
    specialize (IH _ _ Hstep Hrest).
    destruct (snd (CheckReplay rd n)).
    + rewrite <- app_assoc in IH. exact IH.
    + exact IH.
Qed.


(** *** The word of a counter *)

Lemma bitmap_index_explicit (seq : Z) :
  0 <= seq -> Z.to_nat ((seq / 32) mod 64) = bitmap_index seq.
Proof. intros Hs. rewrite <- bitmap_index_mod by exact Hs. apply Nat2Z.id. Qed.

Lemma test_and_set_sets_bit (rd : ReplayDetector) (seq : Z) :
  0 <= seq -> length (bitmap_ rd) = 64%nat ->
  bit_of (bitmap_ (fst (test_and_set rd seq))) seq = true.
Proof.
  intros Hs Hlen. rewrite test_and_set_bit_of by assumption.
  rewrite bool_decide_eq_true_2 by reflexivity. rewrite Z.eqb_refl.
  apply orb_true_r.
Qed.

Lemma test_and_set_other_words (rd : ReplayDetector) (seq : Z) (j : nat) :
  j <> bitmap_index seq ->
  bitmap_ (fst (test_and_set rd seq)) !! j = bitmap_ rd !! j.
Proof. intros Hj. cbn. apply list_lookup_insert_ne. congruence. Qed.

(** An accepted counter has its bit set in its word afterwards. *)
Lemma CheckReplay_writes_bit (rd : ReplayDetector) (seq : Z) :
  0 <= seq -> length (bitmap_ rd) = 64%nat ->
  snd (CheckReplay rd seq) = true ->
  bit_of (bitmap_ (fst (CheckReplay rd seq))) seq = true.
Proof.
  intros Hs Hlen. unfold CheckReplay.
  destruct (seq =? 0); [discriminate|].
  destruct (u64 (seq + WINDOW_SIZE) <? expected_seq_nr_ rd); [discriminate|].
  destruct (expected_seq_nr_ rd <=? seq); intros _.
  - apply test_and_set_sets_bit; [exact Hs|].
    unfold advance_window. cbn [bitmap_]. rewrite clear_words_length. exact Hlen.
  - apply test_and_set_sets_bit; assumption.
Qed.

(** Below the expected counter, a counter whose bit is set is rejected, and
    no word but the counter's own is touched. *)
Lemma CheckReplay_reads_bit (rd : ReplayDetector) (seq : Z) :
  seq < expected_seq_nr_ rd ->
  (bit_of (bitmap_ rd) seq = true -> snd (CheckReplay rd seq) = false)
  /\ (forall j, j <> bitmap_index seq ->
        bitmap_ (fst (CheckReplay rd seq)) !! j = bitmap_ rd !! j).
Proof.
  intros Hlt. unfold CheckReplay.
  destruct (seq =? 0); [split; reflexivity|].
  destruct (u64 (seq + WINDOW_SIZE) <? expected_seq_nr_ rd); [split; reflexivity|].
  replace (expected_seq_nr_ rd <=? seq) with false by (symmetry; apply Z.leb_gt; lia).
  split.
  - intros Hbit. rewrite test_and_set_result, Hbit. reflexivity.
  - intros j Hj. apply test_and_set_other_words. exact Hj.
Qed.

(** *** The detector along a session *)

(** C2 as stated fails: the bitmap has [BITMAP_SIZE] = 64 words, not
    (2048 - 32) / 32 = 63; with 63 words the counter 2016, whose word index
    is 63, would have no word.  And the expected counter is not always the
    highest accepted counter plus 1: after the counter [UINT64_MAX] is
    accepted it is 0. *)
Lemma bitmap_is_not_63_words :
  ~ (BITMAP_SIZE = (2048 - 32) / 32)
  /\ (2048 - 32) / 32 = 63
  /\ bitmap_index 2016 = 63%nat
  /\ ~ (Z.of_nat (bitmap_index 2016) < (2048 - 32) / 32)
  /\ snd (receive_all ReplayDetector_new [UINT64_MAX]) = [UINT64_MAX]
  /\ expected_seq_nr (fst (receive_all ReplayDetector_new [UINT64_MAX])) = 0
  /\ expected_seq_nr (fst (receive_all ReplayDetector_new [UINT64_MAX]))
     <> highest (snd (receive_all ReplayDetector_new [UINT64_MAX])) + 1.
Proof.
  split; [intros H; vm_compute in H; discriminate H|].
  split; [reflexivity|]. split; [reflexivity|].
  split; [intros H; vm_compute in H; discriminate H|].
  split; [vm_compute; reflexivity|]. split; [vm_compute; reflexivity|].
  vm_compute. discriminate.
Qed.

Lemma CheckReplay_length (rd : ReplayDetector) (seq : Z) :
  length (bitmap_ (fst (CheckReplay rd seq))) = length (bitmap_ rd).
Proof.
  unfold CheckReplay.
  destruct (seq =? 0); [reflexivity|].
  destruct (u64 (seq + WINDOW_SIZE) <? expected_seq_nr_ rd); [reflexivity|].
  destruct (expected_seq_nr_ rd <=? seq); rewrite test_and_set_length;
    [|reflexivity].
  unfold advance_window. cbn [bitmap_]. apply clear_words_length.
Qed.

Lemma receive_all_length (seqs : list Z) : forall rd,
  length (bitmap_ (fst (receive_all rd seqs))) = length (bitmap_ rd).
Proof.
  induction seqs as [|n seqs IH]; intros rd; [reflexivity|].
  rewrite receive_all_cons. cbn [fst]. rewrite IH. apply CheckReplay_length.
Qed.

(** C2, amended: the state of the detector is [expected_seq_nr_], the highest
    accepted counter plus 1 (0 when none is accepted) as long as the counter
    [UINT64_MAX] is not received, and a bitmap of (2048 - 32) / 32 + 1 = 64
    words of 32 bits; the word of a counter is the one of index
    (seq / 32) mod 64, below 64: whatever was received, it is the word in
    which [CheckReplay] sets the bit seq mod 32 of a counter it accepts, and,
    for a counter below the expected one, the word whose bit makes it reject
    the counter and the only word it may change. *)
Theorem replay_detector_state (seqs : list Z) :
  Forall counter_in_range seqs ->
  BITMAP_SIZE = (2048 - 32) / 32 + 1
  /\ BITMAP_SIZE = 64
  /\ BITMAP_MASK = 63
  /\ expected_seq_nr (fst (receive_all ReplayDetector_new seqs))
     = highest (snd (receive_all ReplayDetector_new seqs)) + 1
  /\ (forall (trace : list Z) (seq : Z),
        0 <= seq ->
        Z.of_nat (length (bitmap_ (fst (receive_all ReplayDetector_new trace))))
        = BITMAP_SIZE
        /\ (Z.to_nat ((seq / 32) mod 64) < 64)%nat
        /\ (snd (CheckReplay (fst (receive_all ReplayDetector_new trace)) seq) = true ->
            Z.testbit
              (default 0
                 (bitmap_ (fst (CheckReplay (fst (receive_all ReplayDetector_new trace)) seq))
                    !! Z.to_nat ((seq / 32) mod 64)))
              (seq mod 32) = true)
        /\ (seq < expected_seq_nr (fst (receive_all ReplayDetector_new trace)) ->
            (Z.testbit
               (default 0
                  (bitmap_ (fst (receive_all ReplayDetector_new trace))
                     !! Z.to_nat ((seq / 32) mod 64)))
               (seq mod 32) = true ->
             snd (CheckReplay (fst (receive_all ReplayDetector_new trace)) seq) = false)
            /\ (forall j, j <> Z.to_nat ((seq / 32) mod 64) ->
                  bitmap_ (fst (CheckReplay (fst (receive_all ReplayDetector_new trace)) seq))
                    !! j
                  = bitmap_ (fst (receive_all ReplayDetector_new trace)) !! j))).
Proof.
  intros Hrange.
  pose proof (receive_all_ok seqs ReplayDetector_new [] detector_ok_new Hrange)
    as (_ & Hexp & _).
  cbn [app] in Hexp.
  split; [reflexivity|]. split; [reflexivity|]. split; [reflexivity|].
  split; [exact Hexp|].
  intros trace seq Hs.
  assert (Hlen : length (bitmap_ (fst (receive_all ReplayDetector_new trace))) = 64%nat).
  { rewrite receive_all_length. reflexivity. }
  rewrite (bitmap_index_explicit seq Hs).
  split; [rewrite Hlen; reflexivity|].
  split; [apply bitmap_index_lt; exact Hs|]. split.
  - intros Hacc. apply (CheckReplay_writes_bit _ seq Hs Hlen Hacc).
  - intros Hlt. apply (CheckReplay_reads_bit _ seq Hlt).
Qed.

Lemma replay_detector_state_witness :
  expected_seq_nr (fst (receive_all ReplayDetector_new [5; 3; 5; 2100; 90]))
  = highest (snd (receive_all ReplayDetector_new [5; 3; 5; 2100; 90])) + 1.
Proof.
  assert (Hr : forall c, 0 <= c < 4000 -> counter_in_range c).
  { intros c Hc. unfold counter_in_range, UINT64_MAX. lia. }
  assert (Hrange : Forall counter_in_range [5; 3; 5; 2100; 90]).
  { repeat constructor; apply Hr; lia. }
  apply (replay_detector_state [5; 3; 5; 2100; 90] Hrange).
Defined.

(** The word of the counter 2100 is word (2100 / 32) mod 64 = 1, bit
    2100 mod 32 = 20, also after the counter [UINT64_MAX] was received. *)
Example word_of_2100 :
  bitmap_ (fst (receive_all ReplayDetector_new [UINT64_MAX; 2100])) !! 1%nat
  = Some (2 ^ 20).
Proof. vm_compute. reflexivity. Qed.




(** After 5 is accepted the counter 0 is rejected, the counter 3 is accepted
    once, and 5 is rejected. *)
Example zero_is_never_accepted :
  snd (receive_all ReplayDetector_new [5; 0; 3; 3; 5; 0]) = [5; 3].
Proof. vm_compute. reflexivity. Qed.

(** The range of the counters matters: the counter [UINT64_MAX], which is
    not in it, makes the expected counter wrap to 0, and the detector takes
    it again. *)
Example UINT64_MAX_accepted_twice :
  ~ counter_in_range UINT64_MAX
  /\ snd (receive_all ReplayDetector_new [UINT64_MAX; UINT64_MAX])
     = [UINT64_MAX; UINT64_MAX]
  /\ expected_seq_nr (fst (receive_all ReplayDetector_new [UINT64_MAX; UINT64_MAX])) = 0.
Proof.
  split; [|split; vm_compute; reflexivity].
  unfold counter_in_range, UINT64_MAX. lia.
Qed.

(** The lower edge of the window, as the spec's boundary case has it: with
    5001 expected, the counter 5001 - 2015 is accepted once and rejected on
    repeat, and so is the lowest counter of the window, 5001 - 2016; the one
    below is rejected. *)
Example replay_window_lower_edge :
  snd (receive_all ReplayDetector_new
         [5000; 5001 - 2015; 5001 - 2015; 5001 - 2016; 5001 - 2016; 5001 - 2017])
  = [5000; 5001 - 2015; 5001 - 2016].
Proof. vm_compute. reflexivity. Qed.

(* ===================================================================== *)
(** * Part III: further properties of the inline code                     *)
(* ===================================================================== *)

(** ** [WgRateLimit::CommitResult] along a run *)

Lemma CommitResult_packets_per_sec (rl : WgRateLimit) (rr : RateLimitResult) :
  packets_per_sec_ (CommitResult rl rr)
  = if used_rate_limit_ rl =? TOTAL_PACKETS_PER_SEC
    then halve_tokens (packets_per_sec_ rl)
    else packets_per_sec_ rl.
Proof. reflexivity. Qed.

Lemma CommitResult_used (rl : WgRateLimit) (rr : RateLimitResult) :
  used_rate_limit_ (CommitResult rl rr) = (used_rate_limit_ rl + 1) mod 2 ^ 32.
Proof. reflexivity. Qed.

Lemma halve_tokens_div2 (p : Z) :
  0 <= p < 2 ^ 32 - 1 -> halve_tokens p = (p + 1) / 2.
Proof. apply halve_div2. Qed.

(** X1: [CommitResult] never raises the token counter and never takes a
    positive one to 0: after any commits, [packets_per_sec_] is between 1 and
    the value it had. *)
Theorem packets_per_sec_only_decays (rrs : list RateLimitResult) : forall rl,
  1 <= packets_per_sec_ rl < 2 ^ 32 - 1 ->
  1 <= packets_per_sec_ (commit_all rl rrs) <= packets_per_sec_ rl.
Proof.
  induction rrs as [|rr rrs IH]; intros rl Hp; [cbn; lia|].
  rewrite commit_all_cons.
  assert (Hstep : 1 <= packets_per_sec_ (CommitResult rl rr) <= packets_per_sec_ rl).
  { rewrite CommitResult_packets_per_sec.
    destruct (used_rate_limit_ rl =? TOTAL_PACKETS_PER_SEC); [|lia].
    rewrite halve_tokens_div2 by lia.
    pose proof (halve_bounds (packets_per_sec_ rl) ltac:(lia)). lia. }
  specialize (IH (CommitResult rl rr) ltac:(lia)). lia.
Qed.

Lemma packets_per_sec_only_decays_witness :
  1 <= packets_per_sec_
         (commit_all WgRateLimit_new
            [mkRateLimitResult 3 1 1; mkRateLimitResult 4100 2 1])
    <= packets_per_sec_ WgRateLimit_new.
Proof.
  apply (packets_per_sec_only_decays
           [mkRateLimitResult 3 1 1; mkRateLimitResult 4100 2 1] WgRateLimit_new).
  cbn [packets_per_sec_ WgRateLimit_new]. unfold PACKETS_PER_SEC. lia.
Defined.

(** X2: commits to different bin entries can be made in either order: the
    limiter ends in the same state. *)
Theorem CommitResult_commute (rl : WgRateLimit) (a b : RateLimitResult) :
  value_ptr a <> value_ptr b ->
  CommitResult (CommitResult rl a) b = CommitResult (CommitResult rl b) a.
Proof.
  intros Hne. unfold CommitResult.
  cbn [bins_ used_rate_limit_ packets_per_sec_].
  f_equal. apply list_insert_insert_ne. congruence.
Qed.

Lemma CommitResult_commute_witness :
  CommitResult (CommitResult WgRateLimit_new (mkRateLimitResult 3 1 1))
               (mkRateLimitResult 4100 2 1)
  = CommitResult (CommitResult WgRateLimit_new (mkRateLimitResult 4100 2 1))
                 (mkRateLimitResult 3 1 1).
Proof.
  apply (CommitResult_commute WgRateLimit_new
           (mkRateLimitResult 3 1 1) (mkRateLimitResult 4100 2 1)).
  cbn [value_ptr]. lia.
Defined.

Lemma commit_all_length (rrs : list RateLimitResult) : forall rl,
  length (bins_ (commit_all rl rrs)) = length (bins_ rl).
Proof.
  induction rrs as [|rr rrs IH]; intros rl; [reflexivity|].
  rewrite commit_all_cons, IH. cbn [bins_ CommitResult]. apply length_insert.
Qed.

(** X3: after a run of commits a bin entry holds the value proposed by the
    last result that pointed at it, and the value it had if none did; the
    array keeps its length. *)
Theorem commit_all_last_write_wins (rrs : list RateLimitResult) : forall rl p,
  (p < length (bins_ rl))%nat ->
  bins_ (commit_all rl rrs) !! p
  = match last_write p rrs with
    | Some v => Some v
    | None => bins_ rl !! p
    end
  /\ length (bins_ (commit_all rl rrs)) = length (bins_ rl).
Proof.
  induction rrs as [|rr rrs IH]; intros rl p Hp; [split; reflexivity|].
  split; [|apply commit_all_length].
  rewrite commit_all_cons. cbn [last_write].
  destruct (IH (CommitResult rl rr) p) as [-> _].
  { cbn [bins_ CommitResult]. rewrite length_insert. exact Hp. }
  destruct (last_write p rrs); [reflexivity|].
  cbn [bins_ CommitResult]. destruct (decide (value_ptr rr = p)) as [->|Hne].
  - apply list_lookup_insert_eq. exact Hp.
  - apply list_lookup_insert_ne. exact Hne.
Qed.

Lemma commit_all_last_write_wins_witness :
  bins_ (commit_all WgRateLimit_new
           [mkRateLimitResult 3 1 1; mkRateLimitResult 9 1 1; mkRateLimitResult 3 2 1])
    !! 3%nat
  = Some 2.
Proof.
  apply (commit_all_last_write_wins
           [mkRateLimitResult 3 1 1; mkRateLimitResult 9 1 1; mkRateLimitResult 3 2 1]
           WgRateLimit_new 3).
  cbn [bins_ WgRateLimit_new]. rewrite length_replicate. unfold BINSIZE. lia.
Defined.

(** X4: a commit leaves the limiter used, whatever it was before, except
    when it makes the 32-bit packet counter wrap to 0 while the token counter
    is the initial 25: then, and only then, [is_used] is false after it. *)
Theorem is_used_after_commit (rl : WgRateLimit) (rr : RateLimitResult) :
  0 <= used_rate_limit_ rl < 2 ^ 32 ->
  (used_rate_limit_ rl < 2 ^ 32 - 1 -> is_used (CommitResult rl rr) = true)
  /\ (is_used (CommitResult rl rr) = false
      <-> used_rate_limit_ rl = 2 ^ 32 - 1
          /\ packets_per_sec_ rl = PACKETS_PER_SEC).
Proof.
  intros Hu.
  assert (Hiff : is_used (CommitResult rl rr) = false
                 <-> used_rate_limit_ rl = 2 ^ 32 - 1
                     /\ packets_per_sec_ rl = PACKETS_PER_SEC).
  { unfold is_used. rewrite orb_false_iff, !negb_false_iff, !Z.eqb_eq.
    rewrite CommitResult_used, CommitResult_packets_per_sec.
    unfold TOTAL_PACKETS_PER_SEC.
    destruct (Z.eq_dec (used_rate_limit_ rl) (2 ^ 32 - 1)) as [Hw|Hnw].
    - rewrite Hw. change ((2 ^ 32 - 1 + 1) mod 2 ^ 32) with 0.
      change (2 ^ 32 - 1 =? 25000) with false. cbv iota. tauto.
    - rewrite Z.mod_small by lia. split; intros [H1 H2]; lia. }
  split; [|exact Hiff].
  intros Hlt. apply not_false_iff_true. intros Hf. apply Hiff in Hf. lia.
Qed.

Lemma is_used_after_commit_witness :
  is_used (CommitResult WgRateLimit_new (mkRateLimitResult 3 1 1)) = true.
Proof.
  assert (H0 : 0 <= used_rate_limit_ WgRateLimit_new < 2 ^ 32)
    by (cbn [used_rate_limit_ WgRateLimit_new]; lia).
  destruct (is_used_after_commit WgRateLimit_new (mkRateLimitResult 3 1 1) H0)
    as [H _].
  apply H. cbn [used_rate_limit_ WgRateLimit_new]. lia.
Defined.

(** Halving [n] times, rounding up each time, divides by 2^n, rounding up. *)
Lemma halve_tokens_iter (n : nat) (p : Z) :
  0 <= p < 2 ^ 32 - 1 ->
  Nat.iter n halve_tokens p = (p + 2 ^ Z.of_nat n - 1) / 2 ^ Z.of_nat n.
Proof.
  intros Hp. induction n as [|n IH].
  - change (Nat.iter 0 halve_tokens p) with p.
    change (2 ^ Z.of_nat 0) with 1. rewrite Z.div_1_r. lia.
  - rewrite Nat.iter_succ, IH. rewrite Nat2Z.inj_succ, Z.pow_succ_r by lia.
    set (b := 2 ^ Z.of_nat n).
    assert (Hb : 0 < b) by (apply Z.pow_pos_nonneg; lia).
    assert (Hle : 0 <= (p + b - 1) / b <= p).
    { split; [apply Z.div_pos; lia|].
      destruct (Z.eq_dec p 0) as [->|Hp0].
      - rewrite Z.div_small; lia.
      - apply Z.div_le_upper_bound; [lia|]. nia. }
    rewrite halve_tokens_div2 by lia.
    replace ((p + b - 1) / b + 1) with ((p + 2 * b - 1) / b).
    + rewrite Z.div_div by lia. f_equal. lia.
    + replace (p + 2 * b - 1) with (p + b - 1 + 1 * b) by lia.
      apply Z.div_add. lia.
Qed.

Lemma halvings_zero (u : Z) : halvings u 0 = 0.
Proof. unfold halvings. rewrite Z.add_0_r. lia. Qed.

Lemma halvings_succ (u k : Z) :
  0 <= u < 2 ^ 32 -> 0 <= k ->
  halvings u (k + 1)
  = (if u =? TOTAL_PACKETS_PER_SEC then 1 else 0) + halvings ((u + 1) mod 2 ^ 32) k.
Proof.
  intros Hu Hk. unfold halvings, TOTAL_PACKETS_PER_SEC.
  change (2 ^ 32) with 4294967296 in *.
  destruct (Z.eqb_spec u 25000) as [->|Hne];
    Z.div_mod_to_equations; lia.
Qed.

Lemma halvings_nonneg (u k : Z) : 0 <= k -> 0 <= halvings u k.
Proof.
  intros Hk. unfold halvings. change (2 ^ 32) with 4294967296.
  Z.div_mod_to_equations. lia.
Qed.

Lemma commit_all_iter (rrs : list RateLimitResult) : forall rl,
  0 <= used_rate_limit_ rl < 2 ^ 32 ->
  used_rate_limit_ (commit_all rl rrs)
  = (used_rate_limit_ rl + Z.of_nat (length rrs)) mod 2 ^ 32
  /\ packets_per_sec_ (commit_all rl rrs)
     = Nat.iter (Z.to_nat (halvings (used_rate_limit_ rl) (Z.of_nat (length rrs))))
         halve_tokens (packets_per_sec_ rl).
Proof.
  induction rrs as [|rr rrs IH]; intros rl Hu.
  - cbn [commit_all fold_left length]. rewrite halvings_zero, Z.add_0_r.
    split; [symmetry; apply Z.mod_small; exact Hu|reflexivity].
  - rewrite commit_all_cons.
    assert (Hu1 : 0 <= used_rate_limit_ (CommitResult rl rr) < 2 ^ 32).
    { rewrite CommitResult_used. apply Z.mod_pos_bound. lia. }
    destruct (IH (CommitResult rl rr) Hu1) as [IHu IHp].
    replace (Z.of_nat (length (rr :: rrs))) with (Z.of_nat (length rrs) + 1)
      by (cbn [length]; lia).
    split.
    + rewrite IHu, CommitResult_used, Zplus_mod_idemp_l. f_equal. lia.
    + rewrite IHp, CommitResult_used, CommitResult_packets_per_sec.
      rewrite halvings_succ by lia.
      pose proof (halvings_nonneg ((used_rate_limit_ rl + 1) mod 2 ^ 32)
                    (Z.of_nat (length rrs)) ltac:(lia)) as Hh.
      destruct (used_rate_limit_ rl =? TOTAL_PACKETS_PER_SEC).
      * rewrite Z2Nat.inj_add by lia. change (Z.to_nat 1) with 1%nat.
        cbn [Nat.add]. symmetry. apply Nat.iter_succ_r.
      * rewrite Z.add_0_l. reflexivity.
Qed.

(** X5: the packet counter counts the commits modulo 2^32, and the token
    counter is halved, by [(packets_per_sec_ + 1) >> 1] in 32 bits, once each
    time a commit finds the packet counter at 25000, that is once in every
    2^32 commits.  For a token counter from 0 to 2^32 - 2 the result is the
    value it had divided by 2 to the number of those commits, rounded up; at
    2^32 - 1 the increment wraps and one halving gives 0.  If the packet
    counter does not pass 25000 the token counter is left as it is. *)
Theorem commit_all_counts_and_halves (rl : WgRateLimit) (rrs : list RateLimitResult) :
  0 <= used_rate_limit_ rl < 2 ^ 32 ->
  used_rate_limit_ (commit_all rl rrs)
  = (used_rate_limit_ rl + Z.of_nat (length rrs)) mod 2 ^ 32
  /\ 0 <= halvings (used_rate_limit_ rl) (Z.of_nat (length rrs))
  /\ packets_per_sec_ (commit_all rl rrs)
     = Nat.iter (Z.to_nat (halvings (used_rate_limit_ rl) (Z.of_nat (length rrs))))
         halve_tokens (packets_per_sec_ rl)
  /\ (0 <= packets_per_sec_ rl < 2 ^ 32 - 1 ->
      packets_per_sec_ (commit_all rl rrs)
      = (packets_per_sec_ rl
         + 2 ^ halvings (used_rate_limit_ rl) (Z.of_nat (length rrs)) - 1)
        / 2 ^ halvings (used_rate_limit_ rl) (Z.of_nat (length rrs)))
  /\ halve_tokens (2 ^ 32 - 1) = 0
  /\ (used_rate_limit_ rl + Z.of_nat (length rrs) <= TOTAL_PACKETS_PER_SEC ->
      packets_per_sec_ (commit_all rl rrs) = packets_per_sec_ rl).
Proof.
  intros Hu. destruct (commit_all_iter rrs rl Hu) as [Hused Hpps].
  pose proof (halvings_nonneg (used_rate_limit_ rl) (Z.of_nat (length rrs))
                ltac:(lia)) as Hh.
  split; [exact Hused|]. split; [exact Hh|]. split; [exact Hpps|]. split.
  { intros Hp. rewrite Hpps, halve_tokens_iter by exact Hp.
    rewrite Z2Nat.id by exact Hh. reflexivity. }
  split; [reflexivity|].
  intros Hfew. rewrite Hpps.
  replace (halvings (used_rate_limit_ rl) (Z.of_nat (length rrs))) with 0;
    [reflexivity|].
  unfold halvings, TOTAL_PACKETS_PER_SEC in *.
  change (2 ^ 32) with 4294967296 in *. Z.div_mod_to_equations. lia.
Qed.

Lemma commit_all_counts_and_halves_witness :
  used_rate_limit_
    (commit_all (mkWgRateLimit 25 24999 [0; 0; 0; 0])
       [mkRateLimitResult 1 1 1; mkRateLimitResult 2 1 1; mkRateLimitResult 1 2 1])
  = (24999 + 3) mod 2 ^ 32.
Proof.
  apply (commit_all_counts_and_halves (mkWgRateLimit 25 24999 [0; 0; 0; 0])
           [mkRateLimitResult 1 1 1; mkRateLimitResult 2 1 1; mkRateLimitResult 1 2 1]).
  cbn [used_rate_limit_]. lia.
Defined.

(** A token counter of 2^32 - 1 is taken to 0 by the commit that halves it,
    and stays there. *)
Example commit_all_at_UINT32_MAX :
  map packets_per_sec_
    [ commit_all (mkWgRateLimit (2 ^ 32 - 1) 25000 [0; 0]) [mkRateLimitResult 1 1 1];
      commit_all (mkWgRateLimit (2 ^ 32 - 2) 25000 [0; 0]) [mkRateLimitResult 1 1 1] ]
  = [0; 2 ^ 31 - 1].
Proof. vm_compute. reflexivity. Qed.

(** A limiter two commits short of 25001 has its token counter halved by the
    second of three commits. *)
Example commit_all_crossing :
  map packets_per_sec_
    [ commit_all (mkWgRateLimit 25 24999 [0; 0; 0; 0]) [mkRateLimitResult 1 1 1];
      commit_all (mkWgRateLimit 25 24999 [0; 0; 0; 0])
        [mkRateLimitResult 1 1 1; mkRateLimitResult 2 1 1];
      commit_all (mkWgRateLimit 25 24999 [0; 0; 0; 0])
        [mkRateLimitResult 1 1 1; mkRateLimitResult 2 1 1; mkRateLimitResult 1 2 1] ]
  = [25; 13; 13]
  /\ halvings 24999 3 = 1.
Proof. vm_compute. split; reflexivity. Qed.

(** ** Wire structures, continued *)

(** X6: the two STATIC_ASSERTs that remain hold: [MessageMacs] is 32 bytes
    and [WgPacketCompressionVer01] is 24 bytes, both without padding.  In the
    two handshake messages that carry MACs they are the last 32 bytes, MAC1
    before MAC2; every message begins with the 32-bit type followed by a
    32-bit key id; and [MESSAGE_MINIMUM_SIZE] is the size of the smallest
    message, the data header. *)
Theorem macs_trail_the_handshake_messages :
  sizeof MessageMacs = 32
  /\ member_offsets MessageMacs_members 0 = [0; 16]
  /\ sizeof WgPacketCompressionVer01 = 24
  /\ member_offsets WgPacketCompressionVer01_members 0 = [0; 2; 3; 4; 8]
  /\ packed_size WgPacketCompressionVer01_members = 24
  /\ List.last MessageHandshakeInitiation_members UInt8 = MessageMacs
  /\ List.last (member_offsets MessageHandshakeInitiation_members 0) 0
     = sizeof MessageHandshakeInitiation - sizeof MessageMacs
  /\ List.last MessageHandshakeResponse_members UInt8 = MessageMacs
  /\ List.last (member_offsets MessageHandshakeResponse_members 0) 0
     = sizeof MessageHandshakeResponse - sizeof MessageMacs
  /\ Forall (fun ms => take 2 ms = [UInt32; UInt32]
                       /\ take 2 (member_offsets ms 0) = [0; 4])
       [ MessageHandshakeInitiation_members; MessageHandshakeResponse_members;
         MessageHandshakeCookie_members; MessageData_members ]
  /\ sizeof MessageData = MESSAGE_MINIMUM_SIZE
  /\ Forall (fun t => MESSAGE_MINIMUM_SIZE <= sizeof t)
       [ MessageHandshakeInitiation; MessageHandshakeResponse;
         MessageHandshakeCookie; MessageData ].
Proof.
  repeat split; try reflexivity.
  - repeat constructor; reflexivity.
  - repeat constructor; vm_compute; discriminate.
Qed.

(** ** Flag bytes *)

Lemma all_bytes_forall (P : Z -> bool) :
  forallb P all_bytes = true -> forall b, 0 <= b < 256 -> P b = true.
Proof.
  intros H b Hb. rewrite forallb_forall in H. apply H.
  unfold all_bytes. apply in_map_iff. exists (Z.to_nat b).
  split; [lia|]. apply in_seq. lia.
Qed.

Lemma short_header_bytes_ok : forallb short_header_byte_ok all_bytes = true.
Proof. vm_compute. reflexivity. Qed.

Lemma ack_header_bytes_ok : forallb ack_header_byte_ok all_bytes = true.
Proof. vm_compute. reflexivity. Qed.

Lemma existsb_eqb_In (x : Z) (l : list Z) : existsb (Z.eqb x) l = true <-> In x l.
Proof.
  rewrite existsb_exists. split.
  - intros (y & Hin & Heq). apply Z.eqb_eq in Heq. subst y. exact Hin.
  - intros Hin. exists x. split; [exact Hin|apply Z.eqb_refl].
Qed.

(** X7: the four masks of the short header cut the flag byte into fields
    that do not overlap and leave no bit out: a byte is the union of its
    short-header bit, key-id field, ack bit and type field, so two bytes with
    the same fields are the same byte.  The key-id field is 0 to 3 times
    [WG_SHORT_HEADER_KEY_ID], and a byte with the short-header bit set is
    never one of the four message types. *)
Theorem short_header_fields_partition (b : Z) :
  0 <= b < 256 ->
  Z.lor (Z.lor (Z.lor (Z.land b WG_SHORT_HEADER_BIT)
                      (Z.land b WG_SHORT_HEADER_KEY_ID_MASK))
               (Z.land b WG_SHORT_HEADER_ACK))
        (Z.land b WG_SHORT_HEADER_TYPE_MASK) = b
  /\ (forall b', 0 <= b' < 256 ->
        short_header_fields b' = short_header_fields b -> b' = b)
  /\ (Z.land b WG_SHORT_HEADER_BIT = 0
      \/ Z.land b WG_SHORT_HEADER_BIT = WG_SHORT_HEADER_BIT)
  /\ (Z.land b WG_SHORT_HEADER_BIT <> 0 -> ~ In b MessageType_values)
  /\ (exists i, 0 <= i <= 3
                /\ Z.land b WG_SHORT_HEADER_KEY_ID_MASK = i * WG_SHORT_HEADER_KEY_ID)
  /\ (Z.land b WG_SHORT_HEADER_ACK = 0
      \/ Z.land b WG_SHORT_HEADER_ACK = WG_SHORT_HEADER_ACK)
  /\ 0 <= Z.land b WG_SHORT_HEADER_TYPE_MASK <= WG_SHORT_HEADER_TYPE_MASK.
Proof.
  intros Hb.
  assert (Hunion : forall x, 0 <= x < 256 ->
    Z.lor (Z.lor (Z.lor (Z.land x WG_SHORT_HEADER_BIT)
                        (Z.land x WG_SHORT_HEADER_KEY_ID_MASK))
                 (Z.land x WG_SHORT_HEADER_ACK))
          (Z.land x WG_SHORT_HEADER_TYPE_MASK) = x).
  { intros x Hx.
    pose proof (all_bytes_forall _ short_header_bytes_ok x Hx) as H.
    unfold short_header_byte_ok, short_header_fields in H.
    rewrite !andb_true_iff in H. apply Z.eqb_eq. tauto. }
  pose proof (all_bytes_forall _ short_header_bytes_ok b Hb) as H.
  unfold short_header_byte_ok, short_header_fields in H.
  rewrite !andb_true_iff, !orb_true_iff, !Z.eqb_eq, negb_true_iff in H.
  destruct H as ((((((_ & Hs) & Hty) & Hk) & Ha) & Ht0) & Ht1).
  split; [apply Hunion; exact Hb|]. split.
  { intros b' Hb' Heq. unfold short_header_fields in Heq.
    rewrite <- (Hunion b' Hb'), <- (Hunion b Hb).
    inversion Heq as [[H1 H2 H3 H4]]. rewrite H1, H2, H3, H4. reflexivity. }
  split; [exact Hs|]. split.
  { intros Hset Hin. destruct Hty as [H0|Hnot]; [contradiction|].
    apply existsb_eqb_In in Hin. congruence. }
  split.
  { apply existsb_exists in Hk as (i & Hin & Hi). apply Z.eqb_eq in Hi.
    exists i. split; [|exact Hi]. cbn [In] in Hin. lia. }
  split; [exact Ha|]. split; [apply Z.leb_le, Ht0|apply Z.leb_le, Ht1].
Qed.

Lemma short_header_fields_partition_witness :
  Z.lor (Z.lor (Z.lor (Z.land 0xB2 WG_SHORT_HEADER_BIT)
                      (Z.land 0xB2 WG_SHORT_HEADER_KEY_ID_MASK))
               (Z.land 0xB2 WG_SHORT_HEADER_ACK))
        (Z.land 0xB2 WG_SHORT_HEADER_TYPE_MASK) = 0xB2.
Proof.
  assert (Hb : 0 <= 0xB2 < 256) by lia.
  destruct (short_header_fields_partition 0xB2 Hb) as [Hunion _]. exact Hunion.
Defined.

(** X8: in an ack header the counter field and the key field share the low
    four bits of the byte without overlapping; the counter field is always
    one of the four declared values, none, 2, 4 or 6, which are twice
    0, 2, 4 and 6, and the key field is 0 to 3. *)
Theorem ack_header_fields_partition (b : Z) :
  0 <= b < 256 ->
  Z.lor (Z.land b WG_ACK_HEADER_COUNTER_MASK) (Z.land b WG_ACK_HEADER_KEY_MASK)
  = Z.land b WG_SHORT_HEADER_TYPE_MASK
  /\ Z.land WG_ACK_HEADER_COUNTER_MASK WG_ACK_HEADER_KEY_MASK = 0
  /\ In (Z.land b WG_ACK_HEADER_COUNTER_MASK)
        [ WG_ACK_HEADER_COUNTER_NONE; WG_ACK_HEADER_COUNTER_2;
          WG_ACK_HEADER_COUNTER_4; WG_ACK_HEADER_COUNTER_6 ]
  /\ [ WG_ACK_HEADER_COUNTER_NONE; WG_ACK_HEADER_COUNTER_2;
       WG_ACK_HEADER_COUNTER_4; WG_ACK_HEADER_COUNTER_6 ]
     = map (Z.mul 2) [0; 2; 4; 6]
  /\ 0 <= Z.land b WG_ACK_HEADER_KEY_MASK <= 3.
Proof.
  intros Hb.
  pose proof (all_bytes_forall _ ack_header_bytes_ok b Hb) as H.
  unfold ack_header_byte_ok, ack_header_fields in H.
  rewrite !andb_true_iff, Z.eqb_eq, existsb_eqb_In, !Z.leb_le in H.
  destruct H as (((Hu & Hc) & Hk0) & Hk1).
  split; [exact Hu|]. split; [reflexivity|]. split; [exact Hc|].
  split; [reflexivity|]. split; assumption.
Qed.

Lemma ack_header_fields_partition_witness :
  In (Z.land 0x0B WG_ACK_HEADER_COUNTER_MASK)
     [ WG_ACK_HEADER_COUNTER_NONE; WG_ACK_HEADER_COUNTER_2;
       WG_ACK_HEADER_COUNTER_4; WG_ACK_HEADER_COUNTER_6 ].
Proof.
  assert (Hb : 0 <= 0x0B < 256) by lia.
  destruct (ack_header_fields_partition 0x0B Hb) as (_ & _ & Hin & _). exact Hin.
Defined.

(** ** The floor of the token counter *)

(** X9: the halving of [CommitResult] has the floor 1: a token counter of 1
    is left at 1, a larger one gets strictly smaller, and a counter of at
    most 2^n is 1 after [n] halvings, so that a fresh limiter, at 25, is at 1
    after five.  The commit that finds the packet counter at 25000 is the
    one that halves. *)
Theorem halve_tokens_reaches_floor (rl : WgRateLimit) (rr : RateLimitResult) (n : nat) :
  1 <= packets_per_sec_ rl < 2 ^ 32 - 1 ->
  used_rate_limit_ rl = TOTAL_PACKETS_PER_SEC ->
  packets_per_sec_ (CommitResult rl rr) = halve_tokens (packets_per_sec_ rl)
  /\ (packets_per_sec_ (CommitResult rl rr) = packets_per_sec_ rl
      <-> packets_per_sec_ rl = 1)
  /\ (packets_per_sec_ rl <= 2 ^ Z.of_nat n ->
      Nat.iter n halve_tokens (packets_per_sec_ rl) = 1)
  /\ Nat.iter 5 halve_tokens PACKETS_PER_SEC = 1.
Proof.
  intros Hp Hu.
  assert (Hc : packets_per_sec_ (CommitResult rl rr) = halve_tokens (packets_per_sec_ rl)).
  { rewrite CommitResult_packets_per_sec, Hu, Z.eqb_refl. reflexivity. }
  split; [exact Hc|]. split.
  { rewrite Hc, halve_tokens_div2 by lia. split; intros H.
    - revert H. Z.div_mod_to_equations. lia.
    - rewrite H. reflexivity. }
  split; [|reflexivity].
  intros Hn. rewrite halve_tokens_iter by lia.
  set (b := 2 ^ Z.of_nat n) in *.
  assert (Hb : 0 < b) by (apply Z.pow_pos_nonneg; lia).
  replace (packets_per_sec_ rl + b - 1) with (packets_per_sec_ rl - 1 + 1 * b) by lia.
  rewrite Z.div_add by lia. rewrite Z.div_small by lia. reflexivity.
Qed.

Lemma halve_tokens_reaches_floor_witness :
  Nat.iter 5 halve_tokens (packets_per_sec_ (mkWgRateLimit 25 25000 [0; 0])) = 1.
Proof.
  assert (Hp : 1 <= packets_per_sec_ (mkWgRateLimit 25 25000 [0; 0]) < 2 ^ 32 - 1)
    by (cbn [packets_per_sec_]; lia).
  destruct (halve_tokens_reaches_floor (mkWgRateLimit 25 25000 [0; 0])
              (mkRateLimitResult 0 1 1) 5 Hp eq_refl) as (_ & _ & H & _).
  apply H. cbn [packets_per_sec_]. change (2 ^ Z.of_nat 5) with 32. lia.
Defined.
